(** * SimpleVector: a shallow embedding of [simple_vector.h]

  The container is a class template over an element type [Type]; the
  embedding is a Section over that type and the operations the template
  uses on it.  [size_t] is a 64-bit unsigned integer, carried as a [Z]
  with the wrap-around written out.  A member function is a computation
  over the object it is called on; it ends normally, throws, or has
  undefined behaviour. *)

From Stdlib Require Import ZArith Lia.
From stdpp Require Import base option list gmap.

Local Open Scope Z_scope.

(** ** [size_t] *)

Module SizeT.
Definition modulus : Z := 2 ^ 64.
Definition SIZE_MAX : Z := modulus - 1.
(** The largest number of slots an array object can have: its size in
    bytes is bounded by [PTRDIFF_MAX] and an element is at least one
    byte wide; [new Type[n]] throws for a larger [n]. *)
Definition PTRDIFF_MAX : Z := 2 ^ 63 - 1.
Definition wrap (x : Z) : Z := x mod modulus.
Definition in_range (x : Z) : Prop := 0 <= x < modulus.
End SizeT.
Import SizeT.

(** ** Outcomes of a member function *)

Inductive exn : Type :=
| bad_alloc
| out_of_range.

Inductive outcome (St A : Type) : Type :=
| Ret (a : A) (s : St)
| Throw (e : exn) (s : St)
| Undefined.
Arguments Ret {St A} a s.
Arguments Throw {St A} e s.
Arguments Undefined {St A}.

(** ** An element type for the examples: [int]

    A moved-from [int] keeps its value; the memory system either serves
    every request or none. *)

Module IntElement.
Definition residue (d s : Z) : Z := s.
Definition heap_unlimited (n : Z) : bool := true.
Definition heap_exhausted (n : Z) : bool := false.
End IntElement.

Section SimpleVector.

(** The element type, [Type()], and what a move assignment
    [d = std::move(s)] leaves in [s], given the old content of [d] and
    the content of [s] (the identity on [s] for [int], the old [d] for a
    swapping move assignment, an empty string for [std::string]). *)
Variable T : Type.
Variable T0 : T.
Variable residue : T -> T -> T.
(** [operator==] and [operator<] of the element type. *)
Variable eqT : T -> T -> bool.
Variable ltT : T -> T -> bool.
(** The memory system: whether a request for [n] slots can be served. *)
Variable heap_ok : Z -> bool.

(** ** The owned buffer *)

(** Modelled from the spec: [array_ptr.h] (class [ArrayPtr]) is not among
    the sources.  The block is carried by value, a list of its slots; the
    null handle is the empty list.  Ownership is exclusive, so no two
    handles share a block. *)
Abbreviation ArrayPtr := (list T).

(** Modelled from the spec: the constructor [ArrayPtr(size_t)], missing
    with [array_ptr.h]: exactly [n] value-initialized slots, or an
    allocation error; for no slot nothing is allocated and the handle is
    null. *)
Definition ArrayPtr_new (n : Z) : option ArrayPtr :=
  if n =? 0 then Some []
  else if (n <=? PTRDIFF_MAX) && heap_ok n
  then Some (replicate (Z.to_nat n) T0)
  else None.

(** Modelled from the spec: element access of the missing [ArrayPtr],
    unchecked; [None] is the undefined behaviour out of the block. *)
Definition slot (b : ArrayPtr) (i : Z) : option T :=
  if 0 <=? i then b !! Z.to_nat i else None.

Definition store (b : ArrayPtr) (i : Z) (x : T) : option ArrayPtr :=
  if (0 <=? i) && (i <? Z.of_nat (length b))
  then Some (<[Z.to_nat i := x]> b)
  else None.

(** The move assignment [d[0] = std::move(s[0])] between two slots of one
    block. *)
Definition move_assign (b : ArrayPtr) (d s : Z) : option ArrayPtr :=
  x ← slot b s;
  y ← slot b d;
  b1 ← store b s (residue y x);
  store b1 d x.

(** ** Algorithms of [<algorithm>] and [<memory>] on blocks

    A pointer into a block is its offset from [Get()].  Each loop runs
    its range; a range whose end precedes its start, or a slot out of the
    block, is undefined ([None]). *)

(** [std::move_backward(first, last, d_last)] inside one block:
    [while (first != last) { --d_last; --last; d_last[0] = std::move(last[0]); }] *)
Fixpoint move_backward_loop (n : nat) (last d_last : Z) (b : ArrayPtr)
  : option ArrayPtr :=
  match n with
  | O => Some b
  | S k =>
      b1 ← move_assign b (d_last - 1) (last - 1);
      move_backward_loop k (last - 1) (d_last - 1) b1
  end.

Definition move_backward (first last d_last : Z) (b : ArrayPtr)
  : option ArrayPtr :=
  if first <=? last
  then move_backward_loop (Z.to_nat (last - first)) last d_last b
  else None.

(** [std::move(first, last, d_first)] inside one block:
    [for (; first != last; ++d_first, ++first) d_first[0] = std::move(first[0]);] *)
Fixpoint move_loop (n : nat) (first d_first : Z) (b : ArrayPtr)
  : option ArrayPtr :=
  match n with
  | O => Some b
  | S k =>
      b1 ← move_assign b d_first first;
      move_loop k (first + 1) (d_first + 1) b1
  end.

Definition move_within (first last d_first : Z) (b : ArrayPtr)
  : option ArrayPtr :=
  if first <=? last
  then move_loop (Z.to_nat (last - first)) first d_first b
  else None.

(** [std::move(first, last, d_first)] from one block into another; the
    result is the source block (holding residues) and the destination. *)
Fixpoint move_to_loop (n : nat) (first d_first : Z) (src dst : ArrayPtr)
  : option (ArrayPtr * ArrayPtr) :=
  match n with
  | O => Some (src, dst)
  | S k =>
      x ← slot src first;
      y ← slot dst d_first;
      src1 ← store src first (residue y x);
      dst1 ← store dst d_first x;
      move_to_loop k (first + 1) (d_first + 1) src1 dst1
  end.

Definition move_to (first last d_first : Z) (src dst : ArrayPtr)
  : option (ArrayPtr * ArrayPtr) :=
  if first <=? last
  then move_to_loop (Z.to_nat (last - first)) first d_first src dst
  else None.

(** [std::copy(first, last, d_first)] from one block into another. *)
Fixpoint copy_to_loop (n : nat) (first d_first : Z) (src dst : ArrayPtr)
  : option ArrayPtr :=
  match n with
  | O => Some dst
  | S k =>
      x ← slot src first;
      dst1 ← store dst d_first x;
      copy_to_loop k (first + 1) (d_first + 1) src dst1
  end.

Definition copy_to (first last d_first : Z) (src dst : ArrayPtr)
  : option ArrayPtr :=
  if first <=? last
  then copy_to_loop (Z.to_nat (last - first)) first d_first src dst
  else None.

(** [std::fill(first, last, value)]. *)
Fixpoint fill_loop (n : nat) (first : Z) (x : T) (b : ArrayPtr)
  : option ArrayPtr :=
  match n with
  | O => Some b
  | S k => b1 ← store b first x; fill_loop k (first + 1) x b1
  end.

Definition fill (first last : Z) (x : T) (b : ArrayPtr) : option ArrayPtr :=
  if first <=? last
  then fill_loop (Z.to_nat (last - first)) first x b
  else None.

(** [std::uninitialized_value_construct(first, last)]: a [Type()] is
    constructed in every slot of the range. *)
Definition uninitialized_value_construct (first last : Z) (b : ArrayPtr)
  : option ArrayPtr :=
  fill first last T0 b.

(** [std::equal(first1, last1, first2, last2)] on random-access ranges:
    the lengths are compared first. *)
Fixpoint equal_loop (n : nat) (b1 : ArrayPtr) (first1 : Z)
    (b2 : ArrayPtr) (first2 : Z) : option bool :=
  match n with
  | O => Some true
  | S k =>
      x ← slot b1 first1;
      y ← slot b2 first2;
      if eqT x y
      then equal_loop k b1 (first1 + 1) b2 (first2 + 1)
      else Some false
  end.

Definition std_equal (b1 : ArrayPtr) (first1 last1 : Z)
    (b2 : ArrayPtr) (first2 last2 : Z) : option bool :=
  if (first1 <=? last1) && (first2 <=? last2)
  then
    if last1 - first1 =? last2 - first2
    then equal_loop (Z.to_nat (last1 - first1)) b1 first1 b2 first2
    else Some false
  else None.

(** [std::lexicographical_compare(first1, last1, first2, last2)]:
    [for (; first1 != last1 && first2 != last2; ++first1, ++first2) {
       if (first1[0] < first2[0]) return true;
       if (first2[0] < first1[0]) return false; }
     return first1 == last1 && first2 != last2;]
    The fuel bounds the loop by the length of the first range. *)
Fixpoint lexicographical_loop (fuel : nat) (b1 : ArrayPtr) (first1 last1 : Z)
    (b2 : ArrayPtr) (first2 last2 : Z) : option bool :=
  if (first1 =? last1) || (first2 =? last2)
  then Some ((first1 =? last1) && negb (first2 =? last2))
  else
    match fuel with
    | O => None
    | S k =>
        x ← slot b1 first1;
        y ← slot b2 first2;
        if ltT x y then Some true
        else if ltT y x then Some false
        else lexicographical_loop k b1 (first1 + 1) last1 b2 (first2 + 1) last2
    end.

Definition lexicographical_compare (b1 : ArrayPtr) (first1 last1 : Z)
    (b2 : ArrayPtr) (first2 last2 : Z) : option bool :=
  if (first1 <=? last1) && (first2 <=? last2)
  then lexicographical_loop (Z.to_nat (last1 - first1))
         b1 first1 last1 b2 first2 last2
  else None.

(** ** The container *)

Record SimpleVector : Type := mkSimpleVector {
  items_ : ArrayPtr;
  size_ : Z;
  capacity_ : Z
}.

(** An iterator (a pointer to [Type]) is the offset of its slot from
    [items_.Get()]. *)
Definition Iterator : Type := Z.

(** Computations on the object a member function is called on. *)
Definition M (A : Type) : Type := SimpleVector -> outcome SimpleVector A.

Definition ret {A} (a : A) : M A := fun v => Ret a v.
Definition bind {A B} (m : M A) (k : A -> M B) : M B :=
  fun v =>
    match m v with
    | Ret a v1 => k a v1
    | Throw e v1 => Throw e v1
    | Undefined => Undefined
    end.
Definition throw {A} (e : exn) : M A := fun v => Throw e v.
Definition undefined {A} : M A := fun _ => Undefined.
(** A block operation that is undefined out of the block. *)
Definition defined {A} (o : option A) : M A :=
  match o with Some a => ret a | None => undefined end.
(** An allocation, which throws when it fails. *)
Definition allocated {A} (o : option A) : M A :=
  match o with Some a => ret a | None => throw bad_alloc end.

Definition get_items : M ArrayPtr := fun v => Ret (items_ v) v.
Definition get_size : M Z := fun v => Ret (size_ v) v.
Definition get_capacity : M Z := fun v => Ret (capacity_ v) v.
Definition set_items (b : ArrayPtr) : M unit :=
  fun v => Ret tt (mkSimpleVector b (size_ v) (capacity_ v)).
Definition set_size (n : Z) : M unit :=
  fun v => Ret tt (mkSimpleVector (items_ v) n (capacity_ v)).
Definition set_capacity (n : Z) : M unit :=
  fun v => Ret tt (mkSimpleVector (items_ v) (size_ v) n).

Notation "x <- m ;; k" := (bind m (fun x => k))
  (at level 100, m at next level, right associativity).
Notation "m ;; k" := (bind m (fun _ => k))
  (at level 100, right associativity).

(** *** Iterators *)

Definition begin_ : M Iterator := ret 0.
Definition end_ : M Iterator := size <- get_size ;; ret (0 + size).
Definition cbegin : M Iterator := ret 0.

(** *** Counters *)

Definition IsEmpty : M bool := size <- get_size ;; ret (size =? 0).

(** *** Element access *)

(** [operator[]], lines 110-114: unchecked. *)
Definition operator_subscript (index : Z) : M T :=
  items <- get_items ;;
  defined (slot items index).

(** [At], lines 116-128. *)
Definition At (index : Z) : M T :=
  size <- get_size ;;
  if index >=? size
  then throw out_of_range
  else items <- get_items ;; defined (slot items index).

(** *** Capacity and size *)

(** [Clear], line 130. *)
Definition Clear : M unit := set_size 0.

(** [Reserve], lines 198-205. *)
Definition Reserve (new_capacity : Z) : M unit :=
  capacity <- get_capacity ;;
  if new_capacity >? capacity
  then
    new_items <- allocated (ArrayPtr_new new_capacity) ;;
    items <- get_items ;;
    first <- begin_ ;;
    last <- end_ ;;
    moved <- defined (move_to first last 0 items new_items) ;;
    set_items (fst moved) ;;
    (* items_.swap(new_items); the old block dies with new_items *)
    set_items (snd moved) ;;
    set_capacity new_capacity
  else ret tt.

(** [Resize], lines 132-142. *)
Definition Resize (new_size : Z) : M unit :=
  size <- get_size ;;
  if new_size <=? size
  then set_size new_size
  else
    capacity <- get_capacity ;;
    (if new_size >? capacity then Reserve new_size else ret tt) ;;
    items <- get_items ;;
    first <- end_ ;;
    b <- begin_ ;;
    items1 <- defined (uninitialized_value_construct first (b + new_size) items) ;;
    set_items items1 ;;
    set_size new_size.

(** *** References passed to [PushBack] and [Insert]

    [PushBack] and [Insert] take their argument by reference ([const
    Type&] or [Type&&]) and read it only after [Reserve] and the backward
    move have run.  The object referred to is either outside the block of
    the container, or a slot of that block ([v[index]]). *)

Inductive reference : Type :=
| External (x : T)
| Element (index : Z).

(** Whether the block the container owned when its capacity was
    [capacity] is still its block: [Reserve] releases the block it
    replaces, and it replaces the block exactly when it changes
    [capacity_]. *)
Definition block_kept (capacity : Z) : M bool :=
  c <- get_capacity ;;
  ret (c =? capacity).

(** Reading through a reference, given the block of the container now and
    whether the block the reference was taken in is still alive: a slot
    of a released block, or out of the block, cannot be read. *)
Definition read (item : reference) (items : ArrayPtr) (alive : bool)
  : option T :=
  match item with
  | External x => Some x
  | Element index => if alive then slot items index else None
  end.

(** The move assignment [items_[d] = std::move(item)]: the block after it
    and what it leaves in the object referred to.  When the reference is
    to slot [d] itself the slot is moved onto itself. *)
Definition move_from (item : reference) (items : ArrayPtr) (alive : bool)
    (d : Z) : option (ArrayPtr * T) :=
  match item with
  | External x =>
      old ← slot items d;
      items1 ← store items d x;
      Some (items1, residue old x)
  | Element index =>
      if alive
      then
        x ← slot items index;
        old ← slot items d;
        items1 ← store items index (residue old x);
        items2 ← (if index =? d then Some items1 else store items1 d x);
        rest ← slot items2 index;
        Some (items2, rest)
      else None
  end.

(** *** Append and removal at the end *)

(** [PushBack(const Type&)], lines 144-150. *)
Definition PushBack (item : reference) : M unit :=
  size <- get_size ;;
  capacity <- get_capacity ;;
  (if size =? capacity
   then Reserve (if capacity =? 0 then 1 else wrap (capacity * 2))
   else ret tt) ;;
  items <- get_items ;;
  size <- get_size ;;
  alive <- block_kept capacity ;;
  x <- defined (read item items alive) ;;
  items1 <- defined (store items size x) ;;
  set_items items1 ;;
  set_size (wrap (size + 1)).

(** [PushBack(Type&&)], lines 152-158; the result is what is left in the
    object [item] refers to. *)
Definition PushBack_rvalue (item : reference) : M T :=
  size <- get_size ;;
  capacity <- get_capacity ;;
  (if size =? capacity
   then Reserve (if capacity =? 0 then 1 else wrap (capacity * 2))
   else ret tt) ;;
  items <- get_items ;;
  size <- get_size ;;
  alive <- block_kept capacity ;;
  moved <- defined (move_from item items alive size) ;;
  set_items (fst moved) ;;
  set_size (wrap (size + 1)) ;;
  ret (snd moved).

(** [PopBack], line 160. *)
Definition PopBack : M unit :=
  size <- get_size ;;
  set_size (wrap (size - (if size =? 0 then 0 else 1))).

(** *** Insertion and removal at a position *)

(** [Insert(ConstIterator, const Type&)], lines 162-174; [value] is read
    at line 170, after the reallocation and the backward move. *)
Definition Insert (pos : Iterator) (value : reference) : M Iterator :=
  cb <- cbegin ;;
  let index := wrap (pos - cb) in
  size <- get_size ;;
  capacity <- get_capacity ;;
  (if size =? capacity
   then Reserve (if capacity =? 0 then 1 else wrap (capacity * 2))
   else ret tt) ;;
  items <- get_items ;;
  b <- begin_ ;;
  e <- end_ ;;
  items1 <- defined (move_backward (b + index) e (e + 1) items) ;;
  set_items items1 ;;
  alive <- block_kept capacity ;;
  x <- defined (read value items1 alive) ;;
  items2 <- defined (store items1 index x) ;;
  set_items items2 ;;
  size <- get_size ;;
  set_size (wrap (size + 1)) ;;
  b <- begin_ ;;
  ret (b + index).

(** [Insert(ConstIterator, Type&&)], lines 176-188; the result pairs the
    iterator with what is left in the object [value] refers to. *)
Definition Insert_rvalue (pos : Iterator) (value : reference)
  : M (Iterator * T) :=
  cb <- cbegin ;;
  let index := wrap (pos - cb) in
  size <- get_size ;;
  capacity <- get_capacity ;;
  (if size =? capacity
   then Reserve (if capacity =? 0 then 1 else wrap (capacity * 2))
   else ret tt) ;;
  items <- get_items ;;
  b <- begin_ ;;
  e <- end_ ;;
  items1 <- defined (move_backward (b + index) e (e + 1) items) ;;
  set_items items1 ;;
  alive <- block_kept capacity ;;
  moved <- defined (move_from value items1 alive index) ;;
  set_items (fst moved) ;;
  size <- get_size ;;
  set_size (wrap (size + 1)) ;;
  b <- begin_ ;;
  ret (b + index, snd moved).

(** [Erase], lines 190-196. *)
Definition Erase (pos : Iterator) : M Iterator :=
  cb <- cbegin ;;
  let index := wrap (pos - cb) in
  items <- get_items ;;
  b <- begin_ ;;
  e <- end_ ;;
  items1 <- defined (move_within (b + index + 1) e (b + index) items) ;;
  set_items items1 ;;
  size <- get_size ;;
  set_size (wrap (size - 1)) ;;
  ret (0 + index).

(** *** Constructors

    A constructor runs on the object with its default member initializers
    ([size_ = 0], [capacity_ = 0], a null [items_]); when it throws, no
    object comes to exist. *)

Definition default_members : SimpleVector := mkSimpleVector [] 0 0.

Definition construct (ctor : M unit) : outcome SimpleVector unit :=
  ctor default_members.

Definition SimpleVector_default : M unit := ret tt.

Definition SimpleVector_copy (other : SimpleVector) : M unit :=
  new_items <- allocated (ArrayPtr_new (capacity_ other)) ;;
  new_items1 <- defined (copy_to 0 (0 + size_ other) 0 (items_ other) new_items) ;;
  set_items new_items1 ;;
  set_size (size_ other) ;;
  set_capacity (capacity_ other).

Definition SimpleVector_size (size : Z) : M unit :=
  set_size size ;;
  set_capacity size ;;
  capacity <- get_capacity ;;
  new_items <- allocated (ArrayPtr_new capacity) ;;
  new_items1 <- defined (fill 0 (0 + size) T0 new_items) ;;
  set_items new_items1.

Definition SimpleVector_size_value (size : Z) (value : T) : M unit :=
  set_size size ;;
  set_capacity size ;;
  capacity <- get_capacity ;;
  new_items <- allocated (ArrayPtr_new capacity) ;;
  new_items1 <- defined (fill 0 (0 + size) value new_items) ;;
  set_items new_items1.

Definition SimpleVector_init (init : list T) : M unit :=
  let size := Z.of_nat (length init) in
  new_items <- allocated (ArrayPtr_new size) ;;
  new_items1 <- defined (copy_to 0 size 0 init new_items) ;;
  set_items new_items1 ;;
  set_size size ;;
  set_capacity size.

(** [ReserveProxyObj] and the free function [Reserve(size_t)] that builds
    it, lines 14-22. *)
Record ReserveProxyObj : Type := mkReserveProxyObj {
  capacity_to_reserve_ : Z
}.

Definition Reserve_proxy (capacity : Z) : ReserveProxyObj :=
  mkReserveProxyObj capacity.

Definition SimpleVector_reserve (obj : ReserveProxyObj) : M unit :=
  new_items <- allocated (ArrayPtr_new (capacity_to_reserve_ obj)) ;;
  new_items1 <- defined (fill 0 (0 + capacity_to_reserve_ obj) T0 new_items) ;;
  set_items new_items1 ;;
  set_capacity (capacity_to_reserve_ obj).

(** The move constructor is [noexcept]: the constructed object and what
    is left of [other].  Modelled from the spec: the move constructor of
    the missing [ArrayPtr] hands the block over and leaves its source
    null. *)
Definition SimpleVector_move (other : SimpleVector)
  : SimpleVector * SimpleVector :=
  let this := mkSimpleVector (items_ other) (size_ other) (capacity_ other) in
  let other1 := mkSimpleVector [] (size_ other) (capacity_ other) in
  let other2 := mkSimpleVector (items_ other1) 0 (capacity_ other1) in
  let other3 := mkSimpleVector (items_ other2) (size_ other2) 0 in
  (this, other3).

(** *** Operations on two objects

    Assignment and [swap] take the object they are called on and another
    one by reference, and the two may be the same object: the objects
    live in a store, keyed by address. *)

Definition operator_assign_copy (this rhs : nat)
    (objs : gmap nat SimpleVector) : outcome (gmap nat SimpleVector) unit :=
  match objs !! this, objs !! rhs with
  | Some l, Some r =>
      if decide (this ≠ rhs)
      then
        match ArrayPtr_new (capacity_ r) with
        | None => Throw bad_alloc objs
        | Some new_items =>
            match copy_to 0 (0 + size_ r) 0 (items_ r) new_items with
            | None => Undefined
            | Some new_items1 =>
                Ret tt (<[this := mkSimpleVector new_items1 (size_ r) (capacity_ r)]> objs)
            end
        end
      else Ret tt objs
  | _, _ => Undefined
  end.

(** Modelled from the spec: the move assignment of the missing
    [ArrayPtr] hands the block over and leaves its source null. *)
Definition operator_assign_move (this other : nat)
    (objs : gmap nat SimpleVector) : outcome (gmap nat SimpleVector) unit :=
  match objs !! this, objs !! other with
  | Some l, Some r =>
      if decide (this ≠ other)
      then
        Ret tt (<[other := mkSimpleVector [] 0 0]>
                  (<[this := mkSimpleVector (items_ r) (size_ r) (capacity_ r)]> objs))
      else Ret tt objs
  | _, _ => Undefined
  end.

Definition swap (this other : nat)
    (objs : gmap nat SimpleVector) : outcome (gmap nat SimpleVector) unit :=
  match objs !! this, objs !! other with
  | Some l, Some r =>
      Ret tt (<[other := mkSimpleVector (items_ l) (size_ l) (capacity_ l)]>
                (<[this := mkSimpleVector (items_ r) (size_ r) (capacity_ r)]> objs))
  | _, _ => Undefined
  end.

(** *** Comparison operators; [None] where the comparison is undefined *)

Definition operator_eq (lhs rhs : SimpleVector) : option bool :=
  std_equal (items_ lhs) 0 (0 + size_ lhs) (items_ rhs) 0 (0 + size_ rhs).

Definition operator_ne (lhs rhs : SimpleVector) : option bool :=
  negb <$> operator_eq lhs rhs.

Definition operator_lt (lhs rhs : SimpleVector) : option bool :=
  lexicographical_compare (items_ lhs) 0 (0 + size_ lhs)
    (items_ rhs) 0 (0 + size_ rhs).

Definition operator_le (lhs rhs : SimpleVector) : option bool :=
  negb <$> operator_lt rhs lhs.

Definition operator_gt (lhs rhs : SimpleVector) : option bool :=
  operator_lt rhs lhs.

Definition operator_ge (lhs rhs : SimpleVector) : option bool :=
  negb <$> operator_lt lhs rhs.

(** ** The state of a live container *)

(** The representation invariant: the counters are ordered, [capacity_]
    is the number of slots of the owned block, and the block is one the
    memory system can hand out. *)
Definition wf (v : SimpleVector) : Prop :=
  0 <= size_ v <= capacity_ v
  /\ Z.of_nat (length (items_ v)) = capacity_ v
  /\ capacity_ v <= PTRDIFF_MAX.



(** The element sequence: the slots at positions [[0, size)]. *)
Definition elements (v : SimpleVector) : list T :=
  take (Z.to_nat (size_ v)) (items_ v).

(** Dictionary order on sequences, over the element order [ltT]; two
    elements neither of which is less than the other are equivalent. *)
Inductive lex_lt : list T -> list T -> Prop :=
| lex_lt_prefix y ys : lex_lt [] (y :: ys)
| lex_lt_head x xs y ys : ltT x y = true -> lex_lt (x :: xs) (y :: ys)
| lex_lt_tail x xs y ys :
    ltT x y = false -> ltT y x = false -> lex_lt xs ys ->
    lex_lt (x :: xs) (y :: ys).

(** Element-wise equality of sequences, over the element equality [eqT]. *)
Definition elementwise_eq (xs ys : list T) : Prop :=
  length xs = length ys
  /\ forall (i : nat) x y, xs !! i = Some x -> ys !! i = Some y -> eqT x y = true.

(** The statement [if (size_ == capacity_) { Reserve(...); }]. *)
Definition grow_if_full : M unit :=
  fun v =>
    (if size_ v =? capacity_ v
     then Reserve (if capacity_ v =? 0 then 1 else wrap (capacity_ v * 2))
     else ret tt) v.

(** [n] calls of [PushBack], one per element of [xs], in order; the
    elements of [xs] are objects outside the container. *)
Fixpoint PushBack_all (xs : list T) : M unit :=
  match xs with
  | [] => ret tt
  | x :: xs' => PushBack (External x) ;; PushBack_all xs'
  end.

(** A sequence of calls of [PushBack], each of either overload and with
    any reference as argument. *)
Inductive push : Type :=
| push_copy (item : reference)
| push_move (item : reference).

Definition push_call (p : push) : M unit :=
  match p with
  | push_copy item => PushBack item
  | push_move item => PushBack_rvalue item ;; ret tt
  end.

Fixpoint PushBack_run (ps : list push) : M unit :=
  match ps with
  | [] => ret tt
  | p :: ps' => push_call p ;; PushBack_run ps'
  end.

(** The value appended by a call whose argument is outside the
    container. *)
Definition pushed_value (p : push) : option T :=
  match p with
  | push_copy (External x) | push_move (External x) => Some x
  | _ => None
  end.

(** The value a reference designates when the call is made. *)
Definition designates (item : reference) (v : SimpleVector) : option T :=
  read item (items_ v) true.

(** An argument that can be read during the call: an object outside the
    container, or a slot of the block of a container with room (whose
    block the call does not replace). *)
Definition valid_argument (item : reference) (v : SimpleVector) : Prop :=
  match item with
  | External _ => True
  | Element index => size_ v < capacity_ v /\ 0 <= index < capacity_ v
  end.

(** An argument that [Insert] at position [p] reads as it was when the
    call was made: an object outside the container, or a slot of a
    container with room that the backward move does not write, before [p]
    or past the size. *)
Definition undisturbed (value : reference) (p : Z) (v : SimpleVector) : Prop :=
  match value with
  | External _ => True
  | Element index =>
      size_ v < capacity_ v
      /\ (0 <= index < p \/ size_ v < index < capacity_ v)
  end.

(** Element-wise equality and dictionary order as boolean functions on
    sequences. *)
Fixpoint all_eq (xs ys : list T) : bool :=
  match xs, ys with
  | [], [] => true
  | x :: xs', y :: ys' => eqT x y && all_eq xs' ys'
  | _, _ => false
  end.

Fixpoint lex_ltb (xs ys : list T) : bool :=
  match xs, ys with
  | _, [] => false
  | [], _ :: _ => true
  | x :: xs', y :: ys' =>
      if ltT x y then true
      else if ltT y x then false
      else lex_ltb xs' ys'
  end.





(** ** Blocks: reading and writing slots *)

Lemma slot_lookup (b : ArrayPtr) (i : Z) :
  0 <= i -> slot b i = b !! Z.to_nat i.
Proof. intros Hi. unfold slot. destruct (Z.leb_spec 0 i); [done | lia]. Qed.

Lemma slot_is_Some (b : ArrayPtr) (i : Z) :
  0 <= i < Z.of_nat (length b) -> exists x, slot b i = Some x.
Proof.
  intros Hi. rewrite slot_lookup by lia.
  apply lookup_lt_is_Some_2. lia.
Qed.

Lemma store_in_block (b : ArrayPtr) (i : Z) (x : T) :
  0 <= i < Z.of_nat (length b) ->
  store b i x = Some (<[Z.to_nat i := x]> b).
Proof.
  intros Hi. unfold store.
  destruct (Z.leb_spec 0 i); [| lia].
  destruct (Z.ltb_spec i (Z.of_nat (length b))); [done | lia].
Qed.

Lemma store_out_of_block (b : ArrayPtr) (i : Z) (x : T) :
  Z.of_nat (length b) <= i -> store b i x = None.
Proof.
  intros Hi. unfold store.
  destruct (Z.ltb_spec i (Z.of_nat (length b))); [lia |].
  by rewrite andb_false_r.
Qed.

Lemma move_assign_in_block (b : ArrayPtr) (d s : Z) :
  0 <= d < Z.of_nat (length b) ->
  0 <= s < Z.of_nat (length b) ->
  exists x y,
    b !! Z.to_nat s = Some x /\ b !! Z.to_nat d = Some y
    /\ move_assign b d s
       = Some (<[Z.to_nat d := x]> (<[Z.to_nat s := residue y x]> b)).
Proof.
  intros Hd Hs.
  destruct (slot_is_Some b s Hs) as [x Hx].
  destruct (slot_is_Some b d Hd) as [y Hy].
  exists x, y. unfold move_assign. rewrite Hx, Hy. simpl.
  rewrite store_in_block by lia. simpl.
  rewrite store_in_block by (rewrite length_insert; lia).
  rewrite slot_lookup in Hx, Hy by lia. done.
Qed.

(** ** The loops on blocks *)

(** The backward move of [[last - n, last)] one slot up keeps the order
    of the moved elements and touches nothing else but the first slot of
    the range, where a residue is left. *)
Lemma move_backward_loop_spec (n : nat) : forall (last : Z) (b : ArrayPtr),
  Z.of_nat n <= last ->
  last + 1 <= Z.of_nat (length b) ->
  exists b',
    move_backward_loop n last (last + 1) b = Some b'
    /\ length b' = length b
    /\ (forall i : nat,
          last - Z.of_nat n < Z.of_nat i <= last ->
          b' !! i = b !! (i - 1)%nat)
    /\ (forall i : nat,
          Z.of_nat i < last - Z.of_nat n \/ last < Z.of_nat i ->
          b' !! i = b !! i).
Proof.
  induction n as [| k IH]; intros last b Hn Hlen.
  - exists b. simpl. repeat split; try done; intros; lia.
  - simpl move_backward_loop.
    replace (last + 1 - 1) with last by lia.
    destruct (move_assign_in_block b last (last - 1)) as (x & y & Hx & Hy & ->);
      [lia | lia |].
    simpl.
    set (b1 := <[Z.to_nat last := x]> (<[Z.to_nat (last - 1) := residue y x]> b)).
    assert (Hlen1 : length b1 = length b)
      by (unfold b1; by rewrite !length_insert).
    destruct (IH (last - 1) b1) as (b' & Hb' & Hl & Hup & Hout); [lia | lia |].
    replace (last - 1 + 1) with last in Hb' by lia.
    exists b'. split; [done |]. split; [congruence |]. split.
    + intros i Hi.
      destruct (decide (Z.of_nat i = last)) as [Heq | Hne].
      * rewrite Hout by lia. unfold b1.
        replace (Z.to_nat last) with i by lia.
        rewrite list_lookup_insert_eq by (rewrite length_insert; lia).
        rewrite <- Hx. f_equal. lia.
      * rewrite Hup by lia. unfold b1.
        rewrite !list_lookup_insert_ne by lia. done.
    + intros i Hi. rewrite Hout by lia. unfold b1.
      rewrite !list_lookup_insert_ne by lia. done.
Qed.

(** The forward move of [[first, first + n)] one slot down. *)
Lemma move_loop_spec (n : nat) : forall (first : Z) (b : ArrayPtr),
  1 <= first ->
  first + Z.of_nat n <= Z.of_nat (length b) ->
  exists b',
    move_loop n first (first - 1) b = Some b'
    /\ length b' = length b
    /\ (forall i : nat,
          first - 1 <= Z.of_nat i < first - 1 + Z.of_nat n ->
          b' !! i = b !! (i + 1)%nat)
    /\ (forall i : nat,
          Z.of_nat i < first - 1 \/ first + Z.of_nat n <= Z.of_nat i ->
          b' !! i = b !! i).
Proof.
  induction n as [| k IH]; intros first b Hfirst Hlen.
  - exists b. simpl. repeat split; try done; intros; lia.
  - simpl move_loop.
    destruct (move_assign_in_block b (first - 1) first) as (x & y & Hx & Hy & ->);
      [lia | lia |].
    simpl.
    set (b1 := <[Z.to_nat (first - 1) := x]> (<[Z.to_nat first := residue y x]> b)).
    assert (Hlen1 : length b1 = length b)
      by (unfold b1; by rewrite !length_insert).
    destruct (IH (first + 1) b1) as (b' & Hb' & Hl & Hdown & Hout); [lia | lia |].
    replace (first + 1 - 1) with (first - 1 + 1) in Hb' by lia.
    exists b'. split; [done |]. split; [congruence |]. split.
    + intros i Hi.
      destruct (decide (Z.of_nat i = first - 1)) as [Heq | Hne].
      * rewrite Hout by lia. unfold b1.
        replace (Z.to_nat (first - 1)) with i by lia.
        rewrite list_lookup_insert_eq by (rewrite length_insert; lia).
        rewrite <- Hx. f_equal. lia.
      * rewrite Hdown by lia. unfold b1.
        rewrite !list_lookup_insert_ne by lia. done.
    + intros i Hi. rewrite Hout by lia. unfold b1.
      rewrite !list_lookup_insert_ne by lia. done.
Qed.

(** The move of [[first, first + n)] into the same positions of another
    block. *)
Lemma move_to_loop_spec (n : nat) : forall (first : Z) (src dst : ArrayPtr),
  0 <= first ->
  first + Z.of_nat n <= Z.of_nat (length src) ->
  first + Z.of_nat n <= Z.of_nat (length dst) ->
  exists src' dst',
    move_to_loop n first first src dst = Some (src', dst')
    /\ length src' = length src
    /\ length dst' = length dst
    /\ (forall i : nat,
          first <= Z.of_nat i < first + Z.of_nat n -> dst' !! i = src !! i)
    /\ (forall i : nat,
          Z.of_nat i < first \/ first + Z.of_nat n <= Z.of_nat i ->
          dst' !! i = dst !! i).
Proof.
  induction n as [| k IH]; intros first src dst Hfirst Hsrc Hdst.
  - exists src, dst. simpl. repeat split; try done; intros; lia.
  - simpl move_to_loop.
    destruct (slot_is_Some src first) as [x Hx]; [lia |].
    destruct (slot_is_Some dst first) as [y Hy]; [lia |].
    rewrite Hx, Hy. simpl.
    rewrite !store_in_block by lia. simpl.
    rewrite slot_lookup in Hx by lia.
    destruct (IH (first + 1) (<[Z.to_nat first := residue y x]> src)
                (<[Z.to_nat first := x]> dst))
      as (src' & dst' & -> & Hls & Hld & Hin & Hout);
      [lia | rewrite length_insert; lia | rewrite length_insert; lia |].
    rewrite !length_insert in *.
    exists src', dst'. repeat split; try done.
    + intros i Hi.
      destruct (decide (Z.of_nat i = first)) as [Heq | Hne].
      * rewrite Hout by lia.
        replace (Z.to_nat first) with i in * by lia.
        rewrite list_lookup_insert_eq by lia. done.
      * rewrite Hin by lia. rewrite list_lookup_insert_ne by lia. done.
    + intros i Hi. rewrite Hout by lia.
      rewrite list_lookup_insert_ne by lia. done.
Qed.

(** The copy of [[first, first + n)] into the same positions of another
    block. *)
Lemma copy_to_loop_spec (n : nat) : forall (first : Z) (src dst : ArrayPtr),
  0 <= first ->
  first + Z.of_nat n <= Z.of_nat (length src) ->
  first + Z.of_nat n <= Z.of_nat (length dst) ->
  exists dst',
    copy_to_loop n first first src dst = Some dst'
    /\ length dst' = length dst
    /\ (forall i : nat,
          first <= Z.of_nat i < first + Z.of_nat n -> dst' !! i = src !! i)
    /\ (forall i : nat,
          Z.of_nat i < first \/ first + Z.of_nat n <= Z.of_nat i ->
          dst' !! i = dst !! i).
Proof.
  induction n as [| k IH]; intros first src dst Hfirst Hsrc Hdst.
  - exists dst. simpl. repeat split; try done; intros; lia.
  - simpl copy_to_loop.
    destruct (slot_is_Some src first) as [x Hx]; [lia |].
    rewrite Hx. simpl.
    rewrite store_in_block by lia. simpl.
    rewrite slot_lookup in Hx by lia.
    destruct (IH (first + 1) src (<[Z.to_nat first := x]> dst))
      as (dst' & -> & Hld & Hin & Hout);
      [lia | lia | rewrite length_insert; lia |].
    rewrite !length_insert in *.
    exists dst'. repeat split; try done.
    + intros i Hi.
      destruct (decide (Z.of_nat i = first)) as [Heq | Hne].
      * rewrite Hout by lia.
        replace (Z.to_nat first) with i in * by lia.
        rewrite list_lookup_insert_eq by lia. done.
      * rewrite Hin by lia. done.
    + intros i Hi. rewrite Hout by lia.
      rewrite list_lookup_insert_ne by lia. done.
Qed.

Lemma fill_loop_spec (n : nat) : forall (first : Z) (x : T) (b : ArrayPtr),
  0 <= first ->
  first + Z.of_nat n <= Z.of_nat (length b) ->
  exists b',
    fill_loop n first x b = Some b'
    /\ length b' = length b
    /\ (forall i : nat,
          first <= Z.of_nat i < first + Z.of_nat n -> b' !! i = Some x)
    /\ (forall i : nat,
          Z.of_nat i < first \/ first + Z.of_nat n <= Z.of_nat i ->
          b' !! i = b !! i).
Proof.
  induction n as [| k IH]; intros first x b Hfirst Hlen.
  - exists b. simpl. repeat split; try done; intros; lia.
  - simpl fill_loop.
    rewrite store_in_block by lia. simpl.
    destruct (IH (first + 1) x (<[Z.to_nat first := x]> b))
      as (b' & -> & Hl & Hin & Hout); [lia | rewrite length_insert; lia |].
    rewrite !length_insert in *.
    exists b'. repeat split; try done.
    + intros i Hi.
      destruct (decide (Z.of_nat i = first)) as [Heq | Hne].
      * rewrite Hout by lia.
        replace (Z.to_nat first) with i in * by lia.
        rewrite list_lookup_insert_eq by lia. done.
      * rewrite Hin by lia. done.
    + intros i Hi. rewrite Hout by lia.
      rewrite list_lookup_insert_ne by lia. done.
Qed.

(** Two blocks that agree below [k] have the same first [k] slots. *)
Lemma take_ext (k : nat) (l1 l2 : list T) :
  (forall i : nat, (i < k)%nat -> l1 !! i = l2 !! i) ->
  take k l1 = take k l2.
Proof.
  intros H. apply list_eq. intros i.
  destruct (decide (i < k)%nat).
  - rewrite !lookup_take_lt by done. auto.
  - rewrite !lookup_take_ge by lia. done.
Qed.

(** ** The allocator *)

Lemma modulus_value : modulus = 18446744073709551616.
Proof. reflexivity. Qed.

Lemma PTRDIFF_MAX_value : PTRDIFF_MAX = 9223372036854775807.
Proof. reflexivity. Qed.

Lemma ArrayPtr_new_Some (n : Z) (b : ArrayPtr) :
  ArrayPtr_new n = Some b ->
  b = replicate (Z.to_nat n) T0 /\ n <= PTRDIFF_MAX
  /\ (n = 0 \/ heap_ok n = true).
Proof.
  unfold ArrayPtr_new. intros H.
  destruct (Z.eqb_spec n 0) as [-> | Hne].
  { inversion H. rewrite PTRDIFF_MAX_value. repeat split; [lia | by left]. }
  destruct (Z.leb_spec n PTRDIFF_MAX); simpl in H; [| done].
  destruct (heap_ok n); [| done].
  inversion H. repeat split; [done | by right].
Qed.

Lemma ArrayPtr_new_length (n : Z) (b : ArrayPtr) :
  0 <= n -> ArrayPtr_new n = Some b -> Z.of_nat (length b) = n.
Proof.
  intros Hn H. apply ArrayPtr_new_Some in H as (-> & _ & _).
  rewrite length_replicate. lia.
Qed.

(** ** Reserve *)

Lemma Reserve_no_growth (v : SimpleVector) (n : Z) :
  n <= capacity_ v -> Reserve n v = Ret tt v.
Proof.
  intros Hn. unfold Reserve, bind, get_capacity.
  rewrite Z.gtb_ltb. destruct (Z.ltb_spec (capacity_ v) n); [lia | done].
Qed.

Lemma Reserve_bad_alloc (v : SimpleVector) (n : Z) :
  capacity_ v < n -> ArrayPtr_new n = None ->
  Reserve n v = Throw bad_alloc v.
Proof.
  intros Hn Hnew. unfold Reserve, bind, get_capacity.
  rewrite Z.gtb_ltb. destruct (Z.ltb_spec (capacity_ v) n); [| lia].
  rewrite Hnew. done.
Qed.

Lemma Reserve_grows (v : SimpleVector) (n : Z) (fresh : ArrayPtr) :
  wf v -> capacity_ v < n -> ArrayPtr_new n = Some fresh ->
  exists items',
    Reserve n v = Ret tt (mkSimpleVector items' (size_ v) n)
    /\ Z.of_nat (length items') = n
    /\ take (Z.to_nat (size_ v)) items' = take (Z.to_nat (size_ v)) (items_ v)
    /\ (forall i : nat,
          size_ v <= Z.of_nat i < n -> items' !! i = Some T0).
Proof.
  intros (Hsize & Hlen & Hmax) Hn Hnew.
  pose proof (ArrayPtr_new_length n fresh ltac:(lia) Hnew) as Hfresh.
  unfold Reserve, bind, get_capacity.
  rewrite Z.gtb_ltb. destruct (Z.ltb_spec (capacity_ v) n); [| lia].
  rewrite Hnew. simpl.
  unfold move_to. destruct (Z.leb_spec 0 (0 + size_ v)); [| lia].
  destruct (move_to_loop_spec (Z.to_nat (0 + size_ v - 0)) 0 (items_ v) fresh)
    as (src' & dst' & -> & Hls & Hld & Hin & Hout); [lia | lia | lia |].
  simpl. exists dst'. repeat split.
  - lia.
  - apply take_ext. intros i Hi. apply Hin. lia.
  - intros i Hi. rewrite Hout by lia.
    apply ArrayPtr_new_Some in Hnew as (-> & _ & _).
    apply lookup_replicate_2. lia.
Qed.

(** ** Sequences read through lookups *)

Lemma inserted_by_lookup (l l' : list T) (p : nat) (x : T) :
  (p <= length l)%nat ->
  length l' = S (length l) ->
  (forall i : nat, (i < p)%nat -> l' !! i = l !! i) ->
  l' !! p = Some x ->
  (forall i : nat, (p < i <= length l)%nat -> l' !! i = l !! (i - 1)%nat) ->
  l' = take p l ++ x :: drop p l.
Proof.
  intros Hp Hlen Hlow Hat Hhigh. apply list_eq. intros i.
  destruct (decide (i < p)%nat) as [Hlt | Hge].
  - rewrite lookup_app_l by (rewrite length_take; lia).
    rewrite lookup_take_lt by done. auto.
  - rewrite lookup_app_r by (rewrite length_take; lia).
    rewrite length_take_le by lia.
    destruct (decide (i = p)) as [-> | Hne].
    + by rewrite Nat.sub_diag.
    + rewrite lookup_cons_ne_0 by lia. rewrite lookup_drop.
      destruct (decide (i <= length l)%nat).
      * rewrite Hhigh by lia. f_equal. lia.
      * rewrite !lookup_ge_None_2 by lia. done.
Qed.

Lemma erased_by_lookup (l l' : list T) (p : nat) :
  (p < length l)%nat ->
  S (length l') = length l ->
  (forall i : nat, (i < p)%nat -> l' !! i = l !! i) ->
  (forall i : nat, (p <= i < length l')%nat -> l' !! i = l !! (i + 1)%nat) ->
  l' = take p l ++ drop (S p) l.
Proof.
  intros Hp Hlen Hlow Hhigh. apply list_eq. intros i.
  destruct (decide (i < p)%nat) as [Hlt | Hge].
  - rewrite lookup_app_l by (rewrite length_take; lia).
    rewrite lookup_take_lt by done. auto.
  - rewrite lookup_app_r by (rewrite length_take; lia).
    rewrite length_take_le by lia. rewrite lookup_drop.
    destruct (decide (i < length l')%nat).
    + rewrite Hhigh by lia. f_equal. lia.
    + rewrite !lookup_ge_None_2 by lia. done.
Qed.

(** ** [size_t] arithmetic *)

Lemma wrap_small (x : Z) : 0 <= x < modulus -> wrap x = x.
Proof. intros H. unfold wrap. by apply Z.mod_small. Qed.


(** [std::distance(cbegin(), pos)] for a position of the container. *)
Lemma distance_from_begin (p : Z) :
  0 <= p <= PTRDIFF_MAX -> wrap (p - 0) = p.
Proof.
  intros H. rewrite PTRDIFF_MAX_value in H. rewrite Z.sub_0_r.
  apply wrap_small. rewrite modulus_value. lia.
Qed.

(** The capacity asked for when the container is full. *)
Lemma doubling_value (capacity : Z) :
  0 <= capacity <= PTRDIFF_MAX ->
  (if capacity =? 0 then 1 else wrap (capacity * 2)) = Z.max 1 (capacity * 2).
Proof.
  intros H. rewrite PTRDIFF_MAX_value in H.
  destruct (Z.eqb_spec capacity 0) as [-> | Hne]; [done |].
  rewrite wrap_small by (rewrite modulus_value; lia). lia.
Qed.

(** ** The state of a live container: basic facts *)

Lemma wf_default_members : wf default_members.
Proof. unfold wf, default_members. simpl. rewrite PTRDIFF_MAX_value. lia. Qed.

Lemma elements_length (v : SimpleVector) :
  wf v -> length (elements v) = Z.to_nat (size_ v).
Proof.
  intros (Hsize & Hlen & _). unfold elements.
  apply length_take_le. lia.
Qed.

Lemma elements_lookup (v : SimpleVector) (i : nat) :
  Z.of_nat i < size_ v -> elements v !! i = items_ v !! i.
Proof. intros Hi. unfold elements. apply lookup_take_lt. lia. Qed.

(** ** The growth step of [PushBack] and [Insert] *)

Lemma grow_if_full_spec (v : SimpleVector) :
  wf v ->
  match grow_if_full v with
  | Ret _ v1 =>
      wf v1 /\ size_ v1 = size_ v /\ size_ v1 < capacity_ v1
      /\ elements v1 = elements v
      /\ (size_ v < capacity_ v -> v1 = v)
      /\ (size_ v = capacity_ v ->
          capacity_ v1 = Z.max 1 (capacity_ v * 2)
          /\ is_Some (ArrayPtr_new (Z.max 1 (capacity_ v * 2))))
  | Throw e v1 =>
      e = bad_alloc /\ v1 = v /\ size_ v = capacity_ v
      /\ ArrayPtr_new (Z.max 1 (capacity_ v * 2)) = None
  | Undefined => False
  end.
Proof.
  intros Hwf. pose proof Hwf as (Hsize & Hlen & Hmax).
  unfold grow_if_full.
  destruct (Z.eqb_spec (size_ v) (capacity_ v)) as [Hfull | Hroom].
  - rewrite doubling_value by lia.
    destruct (ArrayPtr_new (Z.max 1 (capacity_ v * 2))) as [fresh |] eqn:Hnew.
    + assert (Hlt : capacity_ v < Z.max 1 (capacity_ v * 2)) by lia.
      destruct (Reserve_grows v _ fresh Hwf Hlt Hnew)
        as (items' & -> & Hl & Htake & _).
      apply ArrayPtr_new_Some in Hnew as (_ & Hle & _).
      unfold wf, elements. simpl. repeat split; try lia; try done.
    + rewrite Reserve_bad_alloc by (done || lia). done.
  - unfold ret. repeat split; try lia; try done.
Qed.

(** ** References *)

(** After the growth step the old block is alive exactly when the
    container had room. *)
Lemma grown_block_kept (v v1 : SimpleVector) :
  wf v -> grow_if_full v = Ret tt v1 ->
  (capacity_ v1 =? capacity_ v) = (size_ v <? capacity_ v).
Proof.
  intros Hwf Hrun. pose proof Hwf as (Hsize & _ & _).
  pose proof (grow_if_full_spec v Hwf) as Hgrow. rewrite Hrun in Hgrow.
  destruct Hgrow as (_ & _ & _ & _ & Hsame & Hfull).
  destruct (Z.ltb_spec (size_ v) (capacity_ v)) as [Hlt | Hge].
  - rewrite (Hsame Hlt). apply Z.eqb_refl.
  - destruct (Hfull ltac:(lia)) as [Hc _]. apply Z.eqb_neq. lia.
Qed.

Lemma read_after_growth (item : reference) (v v1 : SimpleVector) :
  wf v -> grow_if_full v = Ret tt v1 ->
  read item (items_ v1) (capacity_ v1 =? capacity_ v)
  = read item (items_ v) (size_ v <? capacity_ v).
Proof.
  intros Hwf Hrun. rewrite (grown_block_kept v v1 Hwf Hrun).
  pose proof (grow_if_full_spec v Hwf) as Hgrow. rewrite Hrun in Hgrow.
  destruct Hgrow as (_ & _ & _ & _ & Hsame & _).
  destruct (Z.ltb_spec (size_ v) (capacity_ v)) as [Hlt | Hge].
  - by rewrite (Hsame Hlt).
  - by destruct item.
Qed.

Lemma read_valid (item : reference) (v : SimpleVector) :
  wf v -> valid_argument item v ->
  exists x, read item (items_ v) (size_ v <? capacity_ v) = Some x.
Proof.
  intros (Hsize & Hlen & _) Hvalid. destruct item as [x | i]; simpl in *.
  - by exists x.
  - destruct Hvalid as [Hroom Hi].
    destruct (Z.ltb_spec (size_ v) (capacity_ v)); [| lia].
    apply slot_is_Some. lia.
Qed.

Lemma read_designates (item : reference) (v : SimpleVector) (x : T) :
  read item (items_ v) (size_ v <? capacity_ v) = Some x ->
  designates item v = Some x.
Proof.
  unfold designates. destruct item as [y | i]; simpl; [done |].
  by destruct (size_ v <? capacity_ v).
Qed.

(** The move assignment from a reference into slot [d] of the block. *)
Lemma move_from_spec (item : reference) (items : ArrayPtr) (alive : bool) (d : Z) :
  0 <= d < Z.of_nat (length items) ->
  match move_from item items alive d with
  | Some (items2, rest) =>
      length items2 = length items
      /\ (forall x, item = External x -> items2 = <[Z.to_nat d := x]> items)
  | None =>
      match item with
      | External _ => False
      | Element i => alive = false \/ ~ 0 <= i < Z.of_nat (length items)
      end
  end.
Proof.
  intros Hd. destruct item as [x | i]; simpl.
  - destruct (slot_is_Some items d Hd) as [old ->]. simpl.
    rewrite store_in_block by done. simpl.
    split; [by rewrite length_insert |]. by intros ? [= ->].
  - destruct alive; [| by left].
    destruct (Z.le_gt_cases 0 i) as [Hlo | Hlo];
      [| unfold slot; destruct (Z.leb_spec 0 i); [lia | right; lia]].
    destruct (Z.lt_ge_cases i (Z.of_nat (length items))) as [Hhi | Hhi].
    + destruct (slot_is_Some items i ltac:(lia)) as [x ->]. simpl.
      destruct (slot_is_Some items d Hd) as [old ->]. simpl.
      rewrite store_in_block by lia. simpl.
      destruct (Z.eqb_spec i d) as [-> | Hne]; simpl.
      * destruct (slot_is_Some (<[Z.to_nat d := residue old x]> items) d)
          as [rest ->]; [rewrite length_insert; lia |].
        simpl. split; [by rewrite length_insert | done].
      * rewrite store_in_block by (rewrite length_insert; lia). simpl.
        destruct (slot_is_Some
                    (<[Z.to_nat d := x]> (<[Z.to_nat i := residue old x]> items)) i)
          as [rest ->]; [rewrite !length_insert; lia |].
        simpl. split; [by rewrite !length_insert | done].
    + rewrite (slot_lookup items i) by lia.
      rewrite (lookup_ge_None_2 items (Z.to_nat i)) by lia.
      simpl. right. lia.
Qed.

Lemma slot_Some_in_block (b : ArrayPtr) (i : Z) (x : T) :
  slot b i = Some x -> 0 <= i < Z.of_nat (length b).
Proof.
  unfold slot. destruct (Z.leb_spec 0 i) as [Hi | Hi]; [| done].
  intros Hx. apply lookup_lt_Some in Hx. lia.
Qed.

Lemma read_Some_valid (item : reference) (v : SimpleVector) (x : T) :
  wf v ->
  read item (items_ v) (size_ v <? capacity_ v) = Some x ->
  valid_argument item v.
Proof.
  intros (_ & Hlen & _). destruct item as [y | i]; simpl; [done |].
  destruct (Z.ltb_spec (size_ v) (capacity_ v)) as [Hlt | Hge]; [| done].
  intros Hx. apply slot_Some_in_block in Hx. lia.
Qed.

Lemma move_from_Some_valid (item : reference) (items : ArrayPtr)
    (alive : bool) (d : Z) (moved : ArrayPtr * T) :
  move_from item items alive d = Some moved ->
  match item with
  | External _ => True
  | Element i => alive = true /\ 0 <= i < Z.of_nat (length items)
  end.
Proof.
  destruct item as [x | i]; simpl; [done |].
  destruct alive; [| done].
  destruct (slot items i) as [x |] eqn:Hx; [| done].
  intros _. split; [done |]. by apply slot_Some_in_block in Hx.
Qed.

(** ** PushBack *)

Lemma PushBack_unfold (item : reference) (v : SimpleVector) :
  PushBack item v =
  match grow_if_full v with
  | Ret _ v1 =>
      match read item (items_ v1) (capacity_ v1 =? capacity_ v) with
      | Some x =>
          match store (items_ v1) (size_ v1) x with
          | Some items1 =>
              Ret tt (mkSimpleVector items1 (wrap (size_ v1 + 1)) (capacity_ v1))
          | None => Undefined
          end
      | None => Undefined
      end
  | Throw e s => Throw e s
  | Undefined => Undefined
  end.
Proof.
  unfold PushBack, grow_if_full, block_kept, bind, get_size, get_capacity,
    get_items.
  cbv beta zeta. unfold ret at 1. cbv beta iota.
  destruct (size_ v =? capacity_ v);
    [destruct (Reserve _ v) as [[] v1 | |] |];
    unfold ret; cbv beta iota; try done;
    (match goal with |- context [read ?r ?b ?a] => destruct (read r b a) end);
    simpl; try done;
    match goal with |- context [store ?b ?i ?x] => by destruct (store b i x) end.
Qed.

Lemma PushBack_rvalue_unfold (item : reference) (v : SimpleVector) :
  PushBack_rvalue item v =
  match grow_if_full v with
  | Ret _ v1 =>
      match move_from item (items_ v1) (capacity_ v1 =? capacity_ v) (size_ v1) with
      | Some moved =>
          Ret (snd moved)
            (mkSimpleVector (fst moved) (wrap (size_ v1 + 1)) (capacity_ v1))
      | None => Undefined
      end
  | Throw e s => Throw e s
  | Undefined => Undefined
  end.
Proof.
  unfold PushBack_rvalue, grow_if_full, block_kept, bind, get_size,
    get_capacity, get_items.
  cbv beta zeta. unfold ret at 1. cbv beta iota.
  destruct (size_ v =? capacity_ v);
    [destruct (Reserve _ v) as [[] v1 | |] |];
    unfold ret; cbv beta iota; try done;
    match goal with
    | |- context [move_from ?r ?b ?a ?d] => by destruct (move_from r b a d)
    end.
Qed.

(** Writing slot [size_] of a container with room and counting it in. *)
Lemma append_in_room (v1 : SimpleVector) (x : T) :
  wf v1 -> size_ v1 < capacity_ v1 ->
  exists items1,
    let v2 := mkSimpleVector items1 (wrap (size_ v1 + 1)) (capacity_ v1) in
    store (items_ v1) (size_ v1) x = Some items1
    /\ wf v2
    /\ size_ v2 = size_ v1 + 1
    /\ elements v2 = elements v1 ++ [x].
Proof.
  intros (Hsize & Hlen & Hmax) Hroom.
  exists (<[Z.to_nat (size_ v1) := x]> (items_ v1)). simpl.
  rewrite PTRDIFF_MAX_value in Hmax.
  rewrite wrap_small by (rewrite modulus_value; lia).
  split; [apply store_in_block; lia |].
  split; [unfold wf; simpl; rewrite length_insert, PTRDIFF_MAX_value; lia |].
  split; [done |].
  unfold elements. simpl.
  replace (Z.to_nat (size_ v1 + 1)) with (S (Z.to_nat (size_ v1))) by lia.
  rewrite (take_S_r _ _ x)
    by (apply list_lookup_insert_eq; lia).
  rewrite take_insert_ge by lia. done.
Qed.

(** [PushBack] with any reference: it returns with the value read through
    the reference appended, throws when the growth fails, and is
    undefined exactly when the reference cannot be read: a slot of a full
    container, whose block the growth releases, or no slot of the block. *)
Lemma PushBack_spec (v : SimpleVector) (item : reference) :
  wf v ->
  match PushBack item v with
  | Ret _ v' =>
      exists x,
        read item (items_ v) (size_ v <? capacity_ v) = Some x
        /\ wf v' /\ size_ v' = size_ v + 1
        /\ elements v' = elements v ++ [x]
        /\ (size_ v < capacity_ v -> capacity_ v' = capacity_ v)
        /\ (size_ v = capacity_ v ->
            capacity_ v' = Z.max 1 (capacity_ v * 2)
            /\ is_Some (ArrayPtr_new (Z.max 1 (capacity_ v * 2))))
  | Throw e v' =>
      e = bad_alloc /\ v' = v /\ size_ v = capacity_ v
      /\ ArrayPtr_new (Z.max 1 (capacity_ v * 2)) = None
  | Undefined =>
      read item (items_ v) (size_ v <? capacity_ v) = None
      /\ (size_ v = capacity_ v ->
          is_Some (ArrayPtr_new (Z.max 1 (capacity_ v * 2))))
  end.
Proof.
  intros Hwf. rewrite PushBack_unfold.
  pose proof (grow_if_full_spec v Hwf) as Hgrow.
  destruct (grow_if_full v) as [[] v1 | e v1 |] eqn:Hrun; [| done | done].
  rewrite (read_after_growth item v v1 Hwf Hrun).
  destruct Hgrow as (Hwf1 & Hs1 & Hroom & Hel & Hsame & Hfull).
  destruct (read item (items_ v) (size_ v <? capacity_ v)) as [x |];
    [| split; [done | intros Hf; by apply Hfull]].
  destruct (append_in_room v1 x Hwf1 Hroom) as (items1 & -> & Hwf2 & Hs2 & Hel2).
  exists x. split; [done |]. split; [done |]. split; [simpl in *; lia |].
  split; [by rewrite Hel2, Hel |].
  split; [intros Hlt; simpl; by rewrite (Hsame Hlt) | done].
Qed.

(** [PushBack] of an object outside the container is never undefined. *)
Lemma PushBack_External_spec (v : SimpleVector) (x : T) :
  wf v ->
  match PushBack (External x) v with
  | Ret _ v' =>
      wf v' /\ size_ v' = size_ v + 1
      /\ elements v' = elements v ++ [x]
      /\ (size_ v < capacity_ v -> capacity_ v' = capacity_ v)
      /\ (size_ v = capacity_ v ->
          capacity_ v' = Z.max 1 (capacity_ v * 2)
          /\ is_Some (ArrayPtr_new (Z.max 1 (capacity_ v * 2))))
  | Throw e v' =>
      e = bad_alloc /\ v' = v /\ size_ v = capacity_ v
      /\ ArrayPtr_new (Z.max 1 (capacity_ v * 2)) = None
  | Undefined => False
  end.
Proof.
  intros Hwf. pose proof (PushBack_spec v (External x) Hwf) as H.
  destruct (PushBack (External x) v) as [[] v' | e v' |].
  - by destruct H as (y & [= <-] & H).
  - done.
  - by destruct H as [[=] _].
Qed.

(** [PushBack(Type&&)] with any reference: it keeps the invariant, grows
    as the other overload does, leaves the state of the other overload
    when the argument is outside the container, and is undefined only
    when the reference cannot be read. *)
Lemma PushBack_rvalue_spec (v : SimpleVector) (item : reference) :
  wf v ->
  match PushBack_rvalue item v with
  | Ret _ v' =>
      wf v' /\ size_ v' = size_ v + 1
      /\ (size_ v < capacity_ v -> capacity_ v' = capacity_ v)
      /\ (size_ v = capacity_ v ->
          capacity_ v' = Z.max 1 (capacity_ v * 2)
          /\ is_Some (ArrayPtr_new (Z.max 1 (capacity_ v * 2))))
      /\ (forall x, item = External x -> PushBack (External x) v = Ret tt v')
      /\ valid_argument item v
  | Throw e v' =>
      e = bad_alloc /\ v' = v /\ size_ v = capacity_ v
      /\ ArrayPtr_new (Z.max 1 (capacity_ v * 2)) = None
  | Undefined =>
      ~ valid_argument item v
      /\ (size_ v = capacity_ v ->
          is_Some (ArrayPtr_new (Z.max 1 (capacity_ v * 2))))
  end.
Proof.
  intros Hwf. rewrite PushBack_rvalue_unfold.
  pose proof (grow_if_full_spec v Hwf) as Hgrow.
  assert (Hpush : forall x, PushBack (External x) v
            = match grow_if_full v with
              | Ret _ v1 =>
                  match store (items_ v1) (size_ v1) x with
                  | Some items1 =>
                      Ret tt (mkSimpleVector items1 (wrap (size_ v1 + 1))
                                (capacity_ v1))
                  | None => Undefined
                  end
              | Throw e s => Throw e s
              | Undefined => Undefined
              end) by (intros x; by rewrite PushBack_unfold).
  destruct (grow_if_full v) as [[] v1 | e v1 |] eqn:Hrun; [| done | done].
  rewrite (grown_block_kept v v1 Hwf Hrun).
  destruct Hgrow as (Hwf1 & Hs1 & Hroom & Hel & Hsame & Hfull).
  pose proof Hwf1 as (Hsize1 & Hlen1 & Hmax1).
  pose proof Hmax1 as Hmax1'. rewrite PTRDIFF_MAX_value in Hmax1'.
  pose proof (move_from_spec item (items_ v1) (size_ v <? capacity_ v)
                (size_ v1) ltac:(lia)) as Hmove.
  destruct (move_from item (items_ v1) (size_ v <? capacity_ v) (size_ v1))
    as [[items2 rest] |] eqn:Hmoved.
  - destruct Hmove as [Hl2 Hext]. simpl.
    split.
    { unfold wf. simpl. rewrite wrap_small by (rewrite modulus_value; lia).
      rewrite Hl2. lia. }
    split.
    { simpl. rewrite wrap_small by (rewrite modulus_value; lia). lia. }
    split; [intros Hlt; simpl; by rewrite (Hsame Hlt) |].
    split; [done |].
    split.
    { intros x Hx. rewrite Hpush, (Hext x Hx).
      by rewrite store_in_block by lia. }
    apply move_from_Some_valid in Hmoved.
    destruct item as [x | i]; [done |]. simpl.
    destruct Hmoved as [Halive Hi].
    destruct (Z.ltb_spec (size_ v) (capacity_ v)) as [Hlt |]; [| done].
    rewrite (Hsame Hlt) in Hi. destruct Hwf as (_ & Hlen & _). lia.
  - split; [| intros Hf; by apply Hfull].
    destruct item as [x | i]; [done |]. simpl. intros [Hlt Hi].
    destruct Hmove as [Halive | Hout].
    + destruct (Z.ltb_spec (size_ v) (capacity_ v)); [done | lia].
    + rewrite (Hsame Hlt) in Hout. destruct Hwf as (_ & Hlen & _). lia.
Qed.

Lemma PushBack_rvalue_same_state (v : SimpleVector) (x : T) :
  wf v ->
  match PushBack_rvalue (External x) v, PushBack (External x) v with
  | Ret _ v1, Ret _ v2 => v1 = v2
  | Throw e1 v1, Throw e2 v2 => e1 = e2 /\ v1 = v2
  | _, _ => False
  end.
Proof.
  intros Hwf.
  pose proof (PushBack_rvalue_spec v (External x) Hwf) as Hrv.
  pose proof (PushBack_External_spec v x Hwf) as Hcp.
  destruct (PushBack_rvalue (External x) v) as [rest v1 | e1 v1 |].
  - destruct Hrv as (_ & _ & _ & _ & Hsame & _). by rewrite (Hsame x eq_refl).
  - destruct Hrv as (-> & -> & Hfull & Hnone).
    destruct (PushBack (External x) v) as [[] v2 | e2 v2 |]; [| | done].
    + destruct Hcp as (_ & _ & _ & _ & Hsome).
      destruct (Hsome Hfull) as [_ [b Hb]]. congruence.
    + by destruct Hcp as (-> & -> & _).
  - by destruct Hrv as [Hinvalid _].
Qed.

(** ** Insert *)

Lemma Insert_unfold (pos : Iterator) (value : reference) (v : SimpleVector) :
  Insert pos value v =
  match grow_if_full v with
  | Ret _ v1 =>
      let index := wrap (pos - 0) in
      match move_backward (0 + index) (0 + size_ v1) (0 + size_ v1 + 1)
              (items_ v1) with
      | Some items1 =>
          match read value items1 (capacity_ v1 =? capacity_ v) with
          | Some x =>
              match store items1 index x with
              | Some items2 =>
                  Ret (0 + index)
                    (mkSimpleVector items2 (wrap (size_ v1 + 1)) (capacity_ v1))
              | None => Undefined
              end
          | None => Undefined
          end
      | None => Undefined
      end
  | Throw e s => Throw e s
  | Undefined => Undefined
  end.
Proof.
  unfold Insert, grow_if_full, block_kept, bind, cbegin, begin_, end_, bind,
    get_size, get_capacity, get_items.
  cbv beta zeta. unfold ret at 1. cbv beta iota.
  destruct (size_ v =? capacity_ v);
    [destruct (Reserve _ v) as [[] v1 | |] |];
    unfold ret; cbv beta iota; try done;
    (match goal with
     | |- context [move_backward ?a ?b ?c ?d] =>
         destruct (move_backward a b c d)
     end);
    simpl; try done;
    (match goal with |- context [read ?r ?b ?a] => destruct (read r b a) end);
    simpl; try done;
    match goal with |- context [store ?b ?i ?x] => by destruct (store b i x) end.
Qed.

Lemma Insert_rvalue_unfold (pos : Iterator) (value : reference)
    (v : SimpleVector) :
  Insert_rvalue pos value v =
  match grow_if_full v with
  | Ret _ v1 =>
      let index := wrap (pos - 0) in
      match move_backward (0 + index) (0 + size_ v1) (0 + size_ v1 + 1)
              (items_ v1) with
      | Some items1 =>
          match move_from value items1 (capacity_ v1 =? capacity_ v) index with
          | Some moved =>
              Ret (0 + index, snd moved)
                (mkSimpleVector (fst moved) (wrap (size_ v1 + 1)) (capacity_ v1))
          | None => Undefined
          end
      | None => Undefined
      end
  | Throw e s => Throw e s
  | Undefined => Undefined
  end.
Proof.
  unfold Insert_rvalue, grow_if_full, block_kept, bind, cbegin, begin_, end_,
    bind, get_size, get_capacity, get_items.
  cbv beta zeta. unfold ret at 1. cbv beta iota.
  destruct (size_ v =? capacity_ v);
    [destruct (Reserve _ v) as [[] v1 | |] |];
    unfold ret; cbv beta iota; try done;
    (match goal with
     | |- context [move_backward ?a ?b ?c ?d] =>
         destruct (move_backward a b c d)
     end);
    simpl; try done;
    match goal with
    | |- context [move_from ?r ?b ?a ?d] => by destruct (move_from r b a d)
    end.
Qed.

(** The backward move and the write of [Insert], in a container with
    room: the elements at or after [p] end one slot further, in the same
    order, and [x] stands at [p]. *)
Lemma insert_in_room (v1 : SimpleVector) (p : Z) (x : T) :
  wf v1 -> size_ v1 < capacity_ v1 -> 0 <= p <= size_ v1 ->
  exists items1 items2,
    let v2 := mkSimpleVector items2 (wrap (size_ v1 + 1)) (capacity_ v1) in
    move_backward (0 + p) (0 + size_ v1) (0 + size_ v1 + 1) (items_ v1)
      = Some items1
    /\ length items1 = length (items_ v1)
    /\ (forall i : nat, p < Z.of_nat i <= size_ v1 ->
          items1 !! i = items_ v1 !! (i - 1)%nat)
    /\ (forall i : nat, Z.of_nat i < p \/ size_ v1 < Z.of_nat i ->
          items1 !! i = items_ v1 !! i)
    /\ store items1 p x = Some items2
    /\ items2 = <[Z.to_nat p := x]> items1
    /\ wf v2
    /\ size_ v2 = size_ v1 + 1
    /\ elements v2 = take (Z.to_nat p) (elements v1) ++ x :: drop (Z.to_nat p) (elements v1).
Proof.
  intros Hwf Hroom Hp.
  pose proof (elements_length v1 Hwf) as Hel.
  destruct Hwf as (Hsz & Hln & Hmx).
  rewrite PTRDIFF_MAX_value in Hmx.
  unfold move_backward.
  destruct (Z.leb_spec (0 + p) (0 + size_ v1)); [| lia].
  destruct (move_backward_loop_spec (Z.to_nat (0 + size_ v1 - (0 + p)))
              (0 + size_ v1) (items_ v1))
    as (items1 & -> & Hl1 & Hup & Hout); [lia | lia |].
  exists items1, (<[Z.to_nat p := x]> items1). simpl.
  rewrite wrap_small by (rewrite modulus_value; lia).
  split; [done |]. split; [done |].
  split; [intros i Hi; apply Hup; lia |].
  split; [intros i Hi; apply Hout; lia |].
  split; [apply store_in_block; lia |].
  split; [done |].
  split; [unfold wf; simpl; rewrite length_insert, PTRDIFF_MAX_value; lia |].
  split; [done |].
  apply inserted_by_lookup.
  - lia.
  - rewrite Hel. unfold elements. simpl.
    rewrite length_take_le by (rewrite length_insert; lia). lia.
  - intros i Hi. unfold elements at 1. simpl.
    rewrite lookup_take_lt by lia.
    rewrite list_lookup_insert_ne by lia.
    rewrite Hout by lia. symmetry. apply elements_lookup. lia.
  - unfold elements at 1. simpl.
    rewrite lookup_take_lt by lia.
    apply list_lookup_insert_eq. lia.
  - intros i Hi. unfold elements at 1. simpl.
    rewrite lookup_take_lt by lia.
    rewrite list_lookup_insert_ne by lia.
    rewrite Hup by lia. symmetry. apply elements_lookup. lia.
Qed.

(** The backward move of [Insert] in a container with room, and the write
    of any value at [p] after it. *)
Lemma shift_then_place (v1 : SimpleVector) (p : Z) :
  wf v1 -> size_ v1 < capacity_ v1 -> 0 <= p <= size_ v1 ->
  exists items1,
    move_backward (0 + p) (0 + size_ v1) (0 + size_ v1 + 1) (items_ v1)
      = Some items1
    /\ length items1 = length (items_ v1)
    /\ (forall i : nat, Z.of_nat i < p \/ size_ v1 < Z.of_nat i ->
          items1 !! i = items_ v1 !! i)
    /\ (forall x,
          store items1 p x = Some (<[Z.to_nat p := x]> items1)
          /\ wf (mkSimpleVector (<[Z.to_nat p := x]> items1)
                   (wrap (size_ v1 + 1)) (capacity_ v1))
          /\ wrap (size_ v1 + 1) = size_ v1 + 1
          /\ elements (mkSimpleVector (<[Z.to_nat p := x]> items1)
                         (wrap (size_ v1 + 1)) (capacity_ v1))
             = take (Z.to_nat p) (elements v1) ++ x :: drop (Z.to_nat p) (elements v1)).
Proof.
  intros Hwf Hroom Hp.
  destruct (insert_in_room v1 p T0 Hwf Hroom Hp)
    as (items1 & items0 & Hmb & Hl1 & _ & Hout & _).
  exists items1. split; [done |]. split; [done |]. split; [done |].
  intros x.
  destruct (insert_in_room v1 p x Hwf Hroom Hp)
    as (items1' & items2 & Hmb' & _ & _ & _ & Hst & -> & Hwf2 & Hs2 & Hel2).
  rewrite Hmb in Hmb'. injection Hmb' as <-.
  split; [done |]. split; [done |]. split; [done | done].
Qed.

(** [Insert] with any reference, at a position of the container: it
    returns with the value read through the reference, after the backward
    move, at the position; that value is the one the reference designated
    when the move did not disturb it.  It throws when the growth fails and
    is undefined only when the reference cannot be read. *)
Lemma Insert_spec (v : SimpleVector) (p : Z) (value : reference) :
  wf v -> 0 <= p <= size_ v ->
  match Insert p value v with
  | Ret it v' =>
      exists x,
        it = p /\ wf v' /\ size_ v' = size_ v + 1
        /\ elements v' = take (Z.to_nat p) (elements v) ++ x :: drop (Z.to_nat p) (elements v)
        /\ slot (items_ v') it = Some x
        /\ (size_ v < capacity_ v -> capacity_ v' = capacity_ v)
        /\ (size_ v = capacity_ v ->
            capacity_ v' = Z.max 1 (capacity_ v * 2)
            /\ is_Some (ArrayPtr_new (Z.max 1 (capacity_ v * 2))))
        /\ (undisturbed value p v -> designates value v = Some x)
        /\ valid_argument value v
  | Throw e v' =>
      e = bad_alloc /\ v' = v /\ size_ v = capacity_ v
      /\ ArrayPtr_new (Z.max 1 (capacity_ v * 2)) = None
  | Undefined =>
      ~ valid_argument value v
      /\ (size_ v = capacity_ v ->
          is_Some (ArrayPtr_new (Z.max 1 (capacity_ v * 2))))
  end.
Proof.
  intros Hwf Hp. rewrite Insert_unfold.
  pose proof (grow_if_full_spec v Hwf) as Hgrow.
  destruct (grow_if_full v) as [[] v1 | e v1 |] eqn:Hrun; [| done | done].
  rewrite (grown_block_kept v v1 Hwf Hrun).
  destruct Hgrow as (Hwf1 & Hs1 & Hroom & Hel & Hsame & Hfull).
  pose proof Hwf1 as (Hsize1 & Hlen1 & Hmax1).
  pose proof Hwf as (Hsize & Hlen & Hmax).
  assert (Hidx : wrap (p - 0) = p) by (apply distance_from_begin; lia).
  cbv zeta. rewrite Hidx.
  destruct (shift_then_place v1 p Hwf1 Hroom ltac:(lia))
    as (items1 & -> & Hl1 & Hout & Hplace).
  destruct (read value items1 (size_ v <? capacity_ v)) as [x |] eqn:Hread.
  - destruct (Hplace x) as (-> & Hwf2 & Hw & Hel2).
    exists x. split; [lia |]. split; [done |]. split; [simpl; lia |].
    split; [by rewrite Hel2, Hel |].
    split.
    { simpl. rewrite slot_lookup by lia.
      replace (Z.to_nat (0 + p)) with (Z.to_nat p) by lia.
      apply list_lookup_insert_eq. lia. }
    split; [intros Hlt; simpl; by rewrite (Hsame Hlt) |].
    split; [done |].
    unfold designates. destruct value as [y | i]; simpl in *; [done |].
    split.
    + intros [Hlt Hi]. rewrite (Hsame Hlt) in *.
      destruct (Z.ltb_spec (size_ v) (capacity_ v)); [| lia].
      rewrite <- Hread. unfold slot.
      destruct (Z.leb_spec 0 i); [| lia].
      symmetry. apply Hout. lia.
    + destruct (Z.ltb_spec (size_ v) (capacity_ v)) as [Hlt |]; [| done].
      apply slot_Some_in_block in Hread. rewrite (Hsame Hlt) in *. lia.
  - split; [| intros Hf; by apply Hfull].
    destruct value as [y | i]; [done |]. simpl in *. intros [Hlt Hi].
    destruct (Z.ltb_spec (size_ v) (capacity_ v)); [| lia].
    rewrite (Hsame Hlt) in *.
    destruct (slot_is_Some items1 i) as [x Hx]; [lia | congruence].
Qed.


(** [Insert(ConstIterator, Type&&)] with any reference: it keeps the
    invariant, grows as the other overload does, leaves the state of the
    other overload when the argument is outside the container, and is
    undefined only when the reference cannot be read. *)
Lemma Insert_rvalue_spec (v : SimpleVector) (p : Z) (value : reference) :
  wf v -> 0 <= p <= size_ v ->
  match Insert_rvalue p value v with
  | Ret (it, _) v' =>
      it = p /\ wf v' /\ size_ v' = size_ v + 1
      /\ (size_ v < capacity_ v -> capacity_ v' = capacity_ v)
      /\ (size_ v = capacity_ v ->
          capacity_ v' = Z.max 1 (capacity_ v * 2)
          /\ is_Some (ArrayPtr_new (Z.max 1 (capacity_ v * 2))))
      /\ (forall x, value = External x -> Insert p (External x) v = Ret p v')
      /\ valid_argument value v
  | Throw e v' =>
      e = bad_alloc /\ v' = v /\ size_ v = capacity_ v
      /\ ArrayPtr_new (Z.max 1 (capacity_ v * 2)) = None
  | Undefined =>
      ~ valid_argument value v
      /\ (size_ v = capacity_ v ->
          is_Some (ArrayPtr_new (Z.max 1 (capacity_ v * 2))))
  end.
Proof.
  intros Hwf Hp. rewrite Insert_rvalue_unfold.
  assert (Hins : forall x, Insert p (External x) v
            = match grow_if_full v with
              | Ret _ v1 =>
                  match move_backward (0 + wrap (p - 0)) (0 + size_ v1)
                          (0 + size_ v1 + 1) (items_ v1) with
                  | Some items1 =>
                      match store items1 (wrap (p - 0)) x with
                      | Some items2 =>
                          Ret (0 + wrap (p - 0))
                            (mkSimpleVector items2 (wrap (size_ v1 + 1))
                               (capacity_ v1))
                      | None => Undefined
                      end
                  | None => Undefined
                  end
              | Throw e s => Throw e s
              | Undefined => Undefined
              end) by (intros x; by rewrite Insert_unfold).
  pose proof (grow_if_full_spec v Hwf) as Hgrow.
  destruct (grow_if_full v) as [[] v1 | e v1 |] eqn:Hrun; [| done | done].
  rewrite (grown_block_kept v v1 Hwf Hrun).
  destruct Hgrow as (Hwf1 & Hs1 & Hroom & Hel & Hsame & Hfull).
  pose proof Hwf1 as (Hsize1 & Hlen1 & Hmax1).
  pose proof Hwf as (Hsize & Hlen & Hmax).
  assert (Hidx : wrap (p - 0) = p) by (apply distance_from_begin; lia).
  cbv zeta. rewrite Hidx in *.
  destruct (shift_then_place v1 p Hwf1 Hroom ltac:(lia))
    as (items1 & Hmb & Hl1 & Hout & Hplace).
  rewrite Hmb in *.
  destruct (Hplace T0) as (_ & _ & Hw & _).
  pose proof (move_from_spec value items1 (size_ v <? capacity_ v) p
                ltac:(lia)) as Hmove.
  destruct (move_from value items1 (size_ v <? capacity_ v) p)
    as [[items2 rest] |] eqn:Hmoved.
  - destruct Hmove as [Hl2 Hext]. simpl.
    split; [lia |].
    split; [unfold wf; simpl; rewrite Hw, Hl2; lia |].
    split; [simpl; lia |].
    split; [intros Hlt; simpl; by rewrite (Hsame Hlt) |].
    split; [done |].
    split.
    { intros x Hx. rewrite Hins, (Hext x Hx).
      destruct (Hplace x) as (-> & _). by rewrite Z.add_0_l. }
    apply move_from_Some_valid in Hmoved.
    destruct value as [x | i]; [done |]. simpl.
    destruct Hmoved as [Halive Hi].
    destruct (Z.ltb_spec (size_ v) (capacity_ v)) as [Hlt |]; [| done].
    rewrite (Hsame Hlt) in *. lia.
  - split; [| intros Hf; by apply Hfull].
    destruct value as [x | i]; [done |]. simpl. intros [Hlt Hi].
    destruct Hmove as [Halive | Hout'].
    + destruct (Z.ltb_spec (size_ v) (capacity_ v)); [done | lia].
    + rewrite (Hsame Hlt) in *. lia.
Qed.


(** ** Erase *)

Lemma Erase_unfold (pos : Iterator) (v : SimpleVector) :
  Erase pos v =
  let index := wrap (pos - 0) in
  match move_within (0 + index + 1) (0 + size_ v) (0 + index) (items_ v) with
  | Some items1 =>
      Ret (0 + index) (mkSimpleVector items1 (wrap (size_ v - 1)) (capacity_ v))
  | None => Undefined
  end.
Proof.
  unfold Erase, bind, cbegin, begin_, end_, bind, get_size, get_items.
  cbv beta zeta. unfold ret at 1. cbv beta iota.
  unfold ret at 1 2. cbv beta iota.
  by destruct (move_within _ _ _ _).
Qed.

Lemma Erase_spec (v : SimpleVector) (p : Z) :
  wf v -> 0 <= p < size_ v ->
  exists v',
    Erase p v = Ret p v'
    /\ wf v' /\ size_ v' = size_ v - 1 /\ capacity_ v' = capacity_ v
    /\ elements v' = take (Z.to_nat p) (elements v) ++ drop (S (Z.to_nat p)) (elements v).
Proof.
  intros Hwf Hp. pose proof (elements_length v Hwf) as Hel.
  destruct Hwf as (Hsize & Hlen & Hmax).
  pose proof Hmax as Hmax'. rewrite PTRDIFF_MAX_value in Hmax'.
  rewrite Erase_unfold.
  assert (Hidx : wrap (p - 0) = p) by (apply distance_from_begin; lia).
  cbv zeta. rewrite Hidx. unfold move_within.
  destruct (Z.leb_spec (0 + p + 1) (0 + size_ v)); [| lia].
  destruct (move_loop_spec (Z.to_nat (0 + size_ v - (0 + p + 1)))
              (0 + p + 1) (items_ v))
    as (items1 & Hrun & Hl1 & Hdown & Hout); [lia | lia |].
  replace (0 + p + 1 - 1) with (0 + p) in Hrun by lia. rewrite Hrun.
  rewrite wrap_small by (rewrite modulus_value; lia).
  eexists. split; [f_equal; lia |].
  split; [unfold wf; simpl; lia |].
  split; [done |]. split; [done |].
  apply erased_by_lookup.
  - lia.
  - rewrite Hel. unfold elements. simpl.
    rewrite length_take_le by lia. lia.
  - intros i Hi. unfold elements at 1. simpl.
    rewrite lookup_take_lt by lia.
    rewrite Hout by lia. symmetry. apply elements_lookup. lia.
  - intros i Hi. unfold elements at 1 in Hi. simpl in Hi.
    rewrite length_take_le in Hi by lia.
    unfold elements at 1. simpl.
    rewrite lookup_take_lt by lia.
    rewrite Hdown by lia. symmetry. apply elements_lookup. lia.
Qed.


(** ** Resize *)

Lemma extended_by_lookup (l l' : list T) (k : nat) (x : T) :
  length l' = (length l + k)%nat ->
  (forall i : nat, (i < length l)%nat -> l' !! i = l !! i) ->
  (forall i : nat, (length l <= i < length l + k)%nat -> l' !! i = Some x) ->
  l' = l ++ replicate k x.
Proof.
  intros Hlen Hlow Hhigh. apply list_eq. intros i.
  destruct (decide (i < length l)%nat) as [Hlt | Hge].
  - rewrite lookup_app_l by done. auto.
  - rewrite lookup_app_r by lia.
    destruct (decide (i < length l + k)%nat).
    + rewrite Hhigh by lia. symmetry. apply lookup_replicate_2. lia.
    + rewrite lookup_ge_None_2 by lia.
      symmetry. apply lookup_ge_None_2. rewrite length_replicate. lia.
Qed.

Lemma Resize_unfold (new_size : Z) (v : SimpleVector) :
  Resize new_size v =
  if new_size <=? size_ v
  then Ret tt (mkSimpleVector (items_ v) new_size (capacity_ v))
  else
    match (if new_size >? capacity_ v then Reserve new_size else ret tt) v with
    | Ret _ v1 =>
        match uninitialized_value_construct (0 + size_ v1) (0 + new_size)
                (items_ v1) with
        | Some items1 =>
            Ret tt (mkSimpleVector items1 new_size (capacity_ v1))
        | None => Undefined
        end
    | Throw e s => Throw e s
    | Undefined => Undefined
    end.
Proof.
  unfold Resize, bind, begin_, end_, bind, get_size, get_capacity, get_items.
  cbv beta zeta.
  destruct (new_size <=? size_ v); [done |].
  destruct (new_size >? capacity_ v);
    [destruct (Reserve _ v) as [[] v1 | |] | unfold ret at 1];
    cbv beta iota; try done;
    unfold ret; cbv beta iota;
    by destruct (uninitialized_value_construct _ _ _).
Qed.

(** Value-construction of the slots [[size, n)] of a container whose
    block has them. *)
Lemma value_construct_in_room (v1 : SimpleVector) (n : Z) :
  wf v1 -> size_ v1 < n <= capacity_ v1 ->
  exists items1,
    let v2 := mkSimpleVector items1 n (capacity_ v1) in
    uninitialized_value_construct (0 + size_ v1) (0 + n) (items_ v1)
      = Some items1
    /\ wf v2
    /\ elements v2 = elements v1 ++ replicate (Z.to_nat (n - size_ v1)) T0.
Proof.
  intros Hwf Hn. pose proof (elements_length v1 Hwf) as Hel.
  destruct Hwf as (Hsize & Hlen & Hmax).
  unfold uninitialized_value_construct, fill.
  destruct (Z.leb_spec (0 + size_ v1) (0 + n)); [| lia].
  destruct (fill_loop_spec (Z.to_nat (0 + n - (0 + size_ v1)))
              (0 + size_ v1) T0 (items_ v1))
    as (items1 & -> & Hl1 & Hin & Hout); [lia | lia |].
  exists items1. simpl. split; [done |].
  split; [unfold wf; simpl; lia |].
  apply extended_by_lookup.
  - rewrite Hel. unfold elements. simpl.
    rewrite length_take_le by lia. lia.
  - intros i Hi. unfold elements at 1. simpl.
    rewrite lookup_take_lt by lia.
    rewrite Hout by lia. symmetry. apply elements_lookup. lia.
  - intros i Hi. unfold elements. simpl.
    rewrite lookup_take_lt by lia. apply Hin. lia.
Qed.

Lemma Resize_shrinks (v : SimpleVector) (n : Z) :
  n <= size_ v ->
  Resize n v = Ret tt (mkSimpleVector (items_ v) n (capacity_ v)).
Proof.
  intros Hn. rewrite Resize_unfold.
  destruct (Z.leb_spec n (size_ v)); [done | lia].
Qed.

Lemma Resize_grows_spec (v : SimpleVector) (n : Z) :
  wf v -> size_ v < n ->
  match Resize n v with
  | Ret _ v' =>
      wf v' /\ size_ v' = n
      /\ elements v' = elements v ++ replicate (Z.to_nat (n - size_ v)) T0
      /\ (n <= capacity_ v -> capacity_ v' = capacity_ v)
      /\ (capacity_ v < n -> capacity_ v' = n /\ is_Some (ArrayPtr_new n))
  | Throw e v' =>
      e = bad_alloc /\ v' = v /\ capacity_ v < n /\ ArrayPtr_new n = None
  | Undefined => False
  end.
Proof.
  intros Hwf Hn. rewrite Resize_unfold.
  destruct (Z.leb_spec n (size_ v)); [lia |].
  rewrite Z.gtb_ltb.
  destruct (Z.ltb_spec (capacity_ v) n) as [Hgrow | Hroom].
  - destruct (ArrayPtr_new n) as [fresh |] eqn:Hnew.
    + destruct (Reserve_grows v n fresh Hwf Hgrow Hnew)
        as (items' & -> & Hl & Htake & _).
      pose proof Hnew as Hnew'.
      apply ArrayPtr_new_Some in Hnew' as (_ & Hle & _).
      set (v1 := mkSimpleVector items' (size_ v) n).
      assert (Hwf1 : wf v1)
        by (destruct Hwf as (? & ? & ?); unfold wf, v1; simpl; lia).
      destruct (value_construct_in_room v1 n Hwf1) as (items1 & Hrun & Hwf2 & Hel2);
        [simpl; lia |].
      simpl in Hrun. simpl. rewrite Hrun.
      change (capacity_ v1) with n in Hwf2, Hel2.
      split; [done |]. split; [done |].
      split; [rewrite Hel2; by unfold elements, v1; simpl; rewrite Htake |].
      split; [lia | done].
    + rewrite Reserve_bad_alloc by done. done.
  - unfold ret.
    destruct (value_construct_in_room v n Hwf) as (items1 & -> & Hwf2 & Hel2);
      [lia |].
    split; [done |]. split; [done |]. split; [done |].
    split; [done | lia].
Qed.

(** ** At and operator[] *)

Lemma At_unfold (index : Z) (v : SimpleVector) :
  At index v =
  if index >=? size_ v
  then Throw out_of_range v
  else match slot (items_ v) index with
       | Some x => Ret x v
       | None => Undefined
       end.
Proof.
  unfold At, bind, get_size, get_items, throw.
  destruct (index >=? size_ v); [done |].
  by destruct (slot (items_ v) index).
Qed.

Lemma operator_subscript_unfold (index : Z) (v : SimpleVector) :
  operator_subscript index v =
  match slot (items_ v) index with
  | Some x => Ret x v
  | None => Undefined
  end.
Proof.
  unfold operator_subscript, bind, get_items.
  by destruct (slot (items_ v) index).
Qed.

(** ** Comparison *)

Lemma take_drop_cons (b : list T) (f n : nat) (x : T) :
  b !! f = Some x ->
  take (S n) (drop f b) = x :: take n (drop (S f) b).
Proof. intros H. by rewrite (drop_S _ _ _ H). Qed.

Lemma equal_loop_spec (n : nat) : forall (b1 b2 : ArrayPtr) (first1 first2 : Z),
  0 <= first1 -> 0 <= first2 ->
  first1 + Z.of_nat n <= Z.of_nat (length b1) ->
  first2 + Z.of_nat n <= Z.of_nat (length b2) ->
  equal_loop n b1 first1 b2 first2
  = Some (all_eq (take n (drop (Z.to_nat first1) b1))
                 (take n (drop (Z.to_nat first2) b2))).
Proof.
  induction n as [| k IH]; intros b1 b2 first1 first2 H1 H2 Hl1 Hl2.
  - done.
  - simpl equal_loop.
    destruct (slot_is_Some b1 first1) as [x Hx]; [lia |].
    destruct (slot_is_Some b2 first2) as [y Hy]; [lia |].
    rewrite Hx, Hy. simpl.
    rewrite slot_lookup in Hx, Hy by lia.
    rewrite (take_drop_cons _ _ _ _ Hx), (take_drop_cons _ _ _ _ Hy).
    simpl. destruct (eqT x y); [| done]. simpl.
    rewrite IH by lia.
    by replace (Z.to_nat (first1 + 1)) with (S (Z.to_nat first1)) by lia;
       replace (Z.to_nat (first2 + 1)) with (S (Z.to_nat first2)) by lia.
Qed.

Lemma all_eq_length (xs : list T) : forall ys,
  all_eq xs ys = true -> length xs = length ys.
Proof.
  induction xs as [| x xs IH]; intros [| y ys] H; simpl in *; try done.
  apply andb_prop in H as [_ H]. f_equal. by apply IH.
Qed.

Lemma all_eq_spec (xs : list T) : forall ys,
  all_eq xs ys = true <-> elementwise_eq xs ys.
Proof.
  unfold elementwise_eq.
  induction xs as [| x xs IH]; intros [| y ys]; simpl.
  - split; [| done]. intros _. split; [done |]. intros i ? ? H. by destruct i.
  - split; [done |]. by intros [? _].
  - split; [done |]. by intros [? _].
  - rewrite andb_true_iff, IH. split.
    + intros [Hxy [Hlen Hall]]. split; [by f_equal |].
      intros [| i] a b Ha Hb; simpl in *.
      * by inversion Ha; inversion Hb; subst.
      * by apply (Hall i).
    + intros [Hlen Hall]. split; [by apply (Hall 0%nat) |].
      split; [by inversion Hlen |].
      intros i a b Ha Hb. by apply (Hall (S i)).
Qed.

Lemma lex_ltb_spec (xs : list T) : forall ys,
  lex_ltb xs ys = true <-> lex_lt xs ys.
Proof.
  induction xs as [| x xs IH]; intros [| y ys]; simpl.
  - split; [done |]. inversion 1.
  - split; [constructor | done].
  - split; [done |]. inversion 1.
  - destruct (ltT x y) eqn:Hxy.
    + split; [by constructor | done].
    + destruct (ltT y x) eqn:Hyx.
      * split; [done |]. inversion 1; congruence.
      * rewrite IH. split; [by constructor |].
        inversion 1; [congruence | done].
Qed.

Lemma lexicographical_loop_spec (fuel : nat) :
  forall (b1 b2 : ArrayPtr) (first1 last1 first2 last2 : Z),
  0 <= first1 <= last1 -> last1 <= Z.of_nat (length b1) ->
  0 <= first2 <= last2 -> last2 <= Z.of_nat (length b2) ->
  last1 - first1 <= Z.of_nat fuel ->
  lexicographical_loop fuel b1 first1 last1 b2 first2 last2
  = Some (lex_ltb
            (take (Z.to_nat (last1 - first1)) (drop (Z.to_nat first1) b1))
            (take (Z.to_nat (last2 - first2)) (drop (Z.to_nat first2) b2))).
Proof.
  induction fuel as [| k IH];
    intros b1 b2 first1 last1 first2 last2 H1 Hl1 H2 Hl2 Hfuel.
  - assert (first1 = last1) as -> by lia.
    simpl. rewrite Z.eqb_refl, Z.sub_diag. simpl.
    destruct (Z.eqb_spec first2 last2) as [-> | Hne].
    + by rewrite Z.sub_diag.
    + destruct (slot_is_Some b2 first2) as [y Hy]; [lia |].
      rewrite slot_lookup in Hy by lia.
      replace (Z.to_nat (last2 - first2))
        with (S (Z.to_nat (last2 - first2 - 1))) by lia.
      by rewrite (take_drop_cons _ _ _ _ Hy).
  - simpl lexicographical_loop.
    destruct (Z.eqb_spec first1 last1) as [-> | Hne1]; simpl.
    { rewrite Z.sub_diag. simpl.
      destruct (Z.eqb_spec first2 last2) as [-> | Hne].
      + by rewrite Z.sub_diag.
      + destruct (slot_is_Some b2 first2) as [y Hy]; [lia |].
        rewrite slot_lookup in Hy by lia.
        replace (Z.to_nat (last2 - first2))
          with (S (Z.to_nat (last2 - first2 - 1))) by lia.
        by rewrite (take_drop_cons _ _ _ _ Hy). }
    destruct (slot_is_Some b1 first1) as [x Hx]; [lia |].
    pose proof Hx as Hx'. rewrite slot_lookup in Hx' by lia.
    replace (Z.to_nat (last1 - first1))
      with (S (Z.to_nat (last1 - first1 - 1))) by lia.
    rewrite (take_drop_cons _ _ _ _ Hx').
    destruct (Z.eqb_spec first2 last2) as [-> | Hne2]; simpl.
    { by rewrite Z.sub_diag. }
    destruct (slot_is_Some b2 first2) as [y Hy]; [lia |].
    pose proof Hy as Hy'. rewrite slot_lookup in Hy' by lia.
    replace (Z.to_nat (last2 - first2))
      with (S (Z.to_nat (last2 - first2 - 1))) by lia.
    rewrite (take_drop_cons _ _ _ _ Hy').
    rewrite Hx, Hy. simpl.
    destruct (ltT x y); [done |].
    destruct (ltT y x); [done |].
    rewrite IH by lia.
    by replace (Z.to_nat (first1 + 1)) with (S (Z.to_nat first1)) by lia;
       replace (Z.to_nat (first2 + 1)) with (S (Z.to_nat first2)) by lia;
       replace (last1 - (first1 + 1)) with (last1 - first1 - 1) by lia;
       replace (last2 - (first2 + 1)) with (last2 - first2 - 1) by lia.
Qed.

Lemma operator_eq_elements (lhs rhs : SimpleVector) :
  wf lhs -> wf rhs ->
  operator_eq lhs rhs = Some (all_eq (elements lhs) (elements rhs)).
Proof.
  intros Hl Hr.
  pose proof (elements_length lhs Hl) as Hel.
  pose proof (elements_length rhs Hr) as Her.
  destruct Hl as (Hsl & Hll & _). destruct Hr as (Hsr & Hlr & _).
  unfold operator_eq, std_equal.
  destruct (Z.leb_spec 0 (0 + size_ lhs)); [| lia].
  destruct (Z.leb_spec 0 (0 + size_ rhs)); [| lia]. simpl.
  destruct (Z.eqb_spec (0 + size_ lhs - 0) (0 + size_ rhs - 0)) as [Heq | Hne].
  - rewrite equal_loop_spec by lia. unfold elements. simpl.
    rewrite !drop_0. do 3 f_equal; f_equal; lia.
  - destruct (all_eq (elements lhs) (elements rhs)) eqn:Hall; [| done].
    apply all_eq_length in Hall. lia.
Qed.

Lemma operator_lt_elements (lhs rhs : SimpleVector) :
  wf lhs -> wf rhs ->
  operator_lt lhs rhs = Some (lex_ltb (elements lhs) (elements rhs)).
Proof.
  intros (Hsl & Hll & _) (Hsr & Hlr & _).
  unfold operator_lt, lexicographical_compare.
  destruct (Z.leb_spec 0 (0 + size_ lhs)); [| lia].
  destruct (Z.leb_spec 0 (0 + size_ rhs)); [| lia]. simpl.
  rewrite lexicographical_loop_spec by lia. unfold elements. simpl.
  rewrite !drop_0. do 3 f_equal; lia.
Qed.

(** ** The claims *)


Lemma undisturbed_valid (value : reference) (p : Z) (v : SimpleVector) :
  0 <= p <= size_ v -> undisturbed value p v -> valid_argument value v.
Proof.
  intros Hp. destruct value as [x | i]; simpl; [done |]. lia.
Qed.

(** [Insert] returns when the reference can be read and the growth, if
    needed, is served. *)
Lemma Insert_returns (v : SimpleVector) (p : Z) (value : reference) :
  wf v ->
  0 <= p <= size_ v ->
  valid_argument value v ->
  (size_ v = capacity_ v -> is_Some (ArrayPtr_new (Z.max 1 (capacity_ v * 2)))) ->
  exists v' x,
    Insert p value v = Ret p v'
    /\ wf v'
    /\ size_ v' = size_ v + 1
    /\ capacity_ v'
       = (if size_ v =? capacity_ v then Z.max 1 (capacity_ v * 2) else capacity_ v)
    /\ elements v' = take (Z.to_nat p) (elements v) ++ x :: drop (Z.to_nat p) (elements v)
    /\ slot (items_ v') p = Some x
    /\ (undisturbed value p v -> designates value v = Some x).
Proof.
  intros Hwf Hp Hvalid Halloc.
  pose proof (Insert_spec v p value Hwf Hp) as Hspec.
  destruct (Insert p value v) as [it v' | e v' |].
  - destruct Hspec
      as (x & -> & Hwf' & Hsize & Hel & Hderef & Hroom & Hfull & Hdes & _).
    exists v', x. split; [done |]. split; [done |]. split; [done |].
    split; [| done].
    destruct (Z.eqb_spec (size_ v) (capacity_ v)) as [Heq | Hne].
    + by apply Hfull.
    + apply Hroom. destruct Hwf as (? & _). lia.
  - destruct Hspec as (_ & _ & Hfull & Hnone).
    destruct (Halloc Hfull) as [b Hb]. congruence.
  - by destruct Hspec as [Hinvalid _].
Qed.

(** A reference to a slot of a full container dangles once the growth is
    served: the four calls that grow are undefined on it. *)
Lemma dangling_reference (v : SimpleVector) (i p : Z) :
  wf v ->
  size_ v = capacity_ v ->
  is_Some (ArrayPtr_new (Z.max 1 (capacity_ v * 2))) ->
  0 <= p <= size_ v ->
  PushBack (Element i) v = Undefined
  /\ PushBack_rvalue (Element i) v = Undefined
  /\ Insert p (Element i) v = Undefined
  /\ Insert_rvalue p (Element i) v = Undefined.
Proof.
  intros Hwf Hfull [b Hb] Hp.
  pose proof (PushBack_spec v (Element i) Hwf) as Hpb.
  pose proof (PushBack_rvalue_spec v (Element i) Hwf) as Hpr.
  pose proof (Insert_spec v p (Element i) Hwf Hp) as Hin.
  pose proof (Insert_rvalue_spec v p (Element i) Hwf Hp) as Hir.
  repeat split.
  - destruct (PushBack (Element i) v) as [[] v' | e v' |]; [| | done].
    + destruct Hpb as (x & Hread & _). simpl in Hread.
      destruct (Z.ltb_spec (size_ v) (capacity_ v)); [lia | done].
    + destruct Hpb as (_ & _ & _ & Hnone). congruence.
  - destruct (PushBack_rvalue (Element i) v) as [r v' | e v' |]; [| | done].
    + destruct Hpr as (_ & _ & _ & _ & _ & Hvalid). simpl in Hvalid. lia.
    + destruct Hpr as (_ & _ & _ & Hnone). congruence.
  - destruct (Insert p (Element i) v) as [it v' | e v' |]; [| | done].
    + destruct Hin as (x & _ & _ & _ & _ & _ & _ & _ & _ & Hvalid).
      simpl in Hvalid. lia.
    + destruct Hin as (_ & _ & _ & Hnone). congruence.
  - destruct (Insert_rvalue p (Element i) v) as [[it r] v' | e v' |]; [| | done].
    + destruct Hir as (_ & _ & _ & _ & _ & _ & Hvalid). simpl in Hvalid. lia.
    + destruct Hir as (_ & _ & _ & Hnone). congruence.
Qed.




(** C4. [Resize(n)] with [n <= size] changes [size_] only: the block and
    the capacity stay.  With [n > size] it returns, when the growth it may
    need is served, with size [n], the old elements followed by
    value-initialized ones, and the capacity raised to [n] when [n] was
    above it.  Resizing down to [n] and back up to the old size gives the
    old size and capacity, and the elements from [n] on value-initialized. *)
Theorem Resize_semantics (v : SimpleVector) :
  wf v ->
  (forall n, 0 <= n <= size_ v ->
     Resize n v = Ret tt (mkSimpleVector (items_ v) n (capacity_ v)))
  /\ (forall n, size_ v < n ->
       (capacity_ v < n -> is_Some (ArrayPtr_new n)) ->
       exists v',
         Resize n v = Ret tt v'
         /\ size_ v' = n
         /\ capacity_ v' = Z.max n (capacity_ v)
         /\ elements v' = elements v ++ replicate (Z.to_nat (n - size_ v)) T0)
  /\ (forall n, 0 <= n <= size_ v ->
       exists v1 v2,
         Resize n v = Ret tt v1
         /\ Resize (size_ v) v1 = Ret tt v2
         /\ size_ v2 = size_ v
         /\ capacity_ v2 = capacity_ v
         /\ elements v2
            = take (Z.to_nat n) (elements v)
              ++ replicate (Z.to_nat (size_ v - n)) T0).
Proof.
  intros Hwf. pose proof Hwf as (Hsize & Hlen & Hmax).
  split; [| split].
  - intros n Hn. apply Resize_shrinks. lia.
  - intros n Hn Halloc.
    pose proof (Resize_grows_spec v n Hwf Hn) as Hspec.
    destruct (Resize n v) as [[] v' | e v' |]; [| | done].
    + destruct Hspec as (_ & Hs & Hel & Hroom & Hgrow).
      exists v'. split; [done |]. split; [done |]. split; [| done].
      destruct (Z.le_gt_cases n (capacity_ v)) as [Hle | Hgt].
      * rewrite (Hroom Hle). lia.
      * destruct (Hgrow ltac:(lia)) as [-> _]. lia.
    + destruct Hspec as (_ & _ & Hgt & Hnone).
      destruct (Halloc Hgt) as [b Hb]. congruence.
  - intros n Hn.
    set (v1 := mkSimpleVector (items_ v) n (capacity_ v)).
    assert (Hwf1 : wf v1) by (unfold wf, v1; simpl; lia).
    assert (Hel1 : elements v1 = take (Z.to_nat n) (elements v)).
    { unfold elements, v1. simpl. rewrite take_take. f_equal. lia. }
    exists v1.
    destruct (Z.eq_dec n (size_ v)) as [-> | Hne].
    + exists v1. split; [apply Resize_shrinks; lia |].
      split; [rewrite Resize_shrinks by (simpl; lia); done |].
      split; [done |]. split; [done |].
      rewrite Z.sub_diag. simpl. by rewrite app_nil_r.
    + pose proof (Resize_grows_spec v1 (size_ v) Hwf1 ltac:(simpl; lia)) as Hspec.
      destruct (Resize (size_ v) v1) as [[] v2 | e v2 |]; [| | done].
      * destruct Hspec as (_ & Hs & Hel & Hroom & _).
        exists v2. split; [apply Resize_shrinks; lia |].
        split; [done |]. split; [done |].
        split; [by rewrite Hroom by (simpl; lia) |].
        by rewrite Hel, Hel1.
      * destruct Hspec as (_ & _ & Hgt & _). simpl in Hgt. lia.
Qed.

Lemma Insert_throws (v : SimpleVector) (p : Z) (x : reference) (e : exn)
    (v' : SimpleVector) :
  wf v -> Insert p x v = Throw e v' ->
  e = bad_alloc /\ v' = v /\ size_ v = capacity_ v
  /\ ArrayPtr_new (Z.max 1 (capacity_ v * 2)) = None.
Proof.
  intros Hwf. rewrite Insert_unfold.
  pose proof (grow_if_full_spec v Hwf) as Hgrow.
  destruct (grow_if_full v) as [[] v1 | e1 v1 |]; [| | done].
  - cbv zeta. destruct (move_backward _ _ _ _); [| done].
    destruct (read _ _ _); [| done]. by destruct (store _ _ _).
  - intros [= <- <-]. done.
Qed.

Lemma Insert_rvalue_throws (v : SimpleVector) (p : Z) (x : reference) (e : exn)
    (v' : SimpleVector) :
  wf v -> Insert_rvalue p x v = Throw e v' ->
  e = bad_alloc /\ v' = v /\ size_ v = capacity_ v
  /\ ArrayPtr_new (Z.max 1 (capacity_ v * 2)) = None.
Proof.
  intros Hwf. rewrite Insert_rvalue_unfold.
  pose proof (grow_if_full_spec v Hwf) as Hgrow.
  destruct (grow_if_full v) as [[] v1 | e1 v1 |]; [| | done].
  - cbv zeta. destruct (move_backward _ _ _ _); [| done].
    by destruct (move_from _ _ _ _).
  - intros [= <- <-]. done.
Qed.

Lemma grow_if_full_bad_alloc (v : SimpleVector) :
  wf v -> size_ v = capacity_ v ->
  ArrayPtr_new (Z.max 1 (capacity_ v * 2)) = None ->
  grow_if_full v = Throw bad_alloc v.
Proof.
  intros Hwf Hfull Hnone. pose proof (grow_if_full_spec v Hwf) as Hgrow.
  destruct (grow_if_full v) as [[] v1 | e1 v1 |]; [| | done].
  - destruct Hgrow as (_ & _ & _ & _ & _ & Hsome).
    destruct (Hsome Hfull) as [_ [b Hb]]. congruence.
  - by destruct Hgrow as (-> & -> & _).
Qed.

(** C5. When the allocation of the new block fails, [Reserve], a growing
    [Resize], and [PushBack] and [Insert] (either overload) on a full
    container throw [bad_alloc] and leave the container as it was: its
    block, size and capacity are those before the call.  And whenever one
    of them throws at all, it is [bad_alloc], from a failed allocation,
    with the container as it was. *)
Theorem bad_alloc_leaves_state (v : SimpleVector) :
  wf v ->
  (forall n, capacity_ v < n -> ArrayPtr_new n = None ->
     Reserve n v = Throw bad_alloc v
     /\ Resize n v = Throw bad_alloc v)
  /\ (size_ v = capacity_ v ->
      ArrayPtr_new (Z.max 1 (capacity_ v * 2)) = None ->
      forall p x,
        PushBack x v = Throw bad_alloc v
        /\ PushBack_rvalue x v = Throw bad_alloc v
        /\ Insert p x v = Throw bad_alloc v
        /\ Insert_rvalue p x v = Throw bad_alloc v)
  /\ (forall n p x e v',
        Reserve n v = Throw e v' \/ Resize n v = Throw e v'
        \/ PushBack x v = Throw e v' \/ PushBack_rvalue x v = Throw e v'
        \/ Insert p x v = Throw e v' \/ Insert_rvalue p x v = Throw e v' ->
        e = bad_alloc /\ v' = v).
Proof.
  intros Hwf. pose proof Hwf as (Hsize & Hlen & Hmax).
  split; [| split].
  - intros n Hn Hnone. split; [by apply Reserve_bad_alloc |].
    rewrite Resize_unfold.
    destruct (Z.leb_spec n (size_ v)); [lia |].
    rewrite Z.gtb_ltb. destruct (Z.ltb_spec (capacity_ v) n); [| lia].
    by rewrite Reserve_bad_alloc.
  - intros Hfull Hnone p x.
    rewrite PushBack_unfold, PushBack_rvalue_unfold, Insert_unfold,
      Insert_rvalue_unfold.
    by rewrite grow_if_full_bad_alloc.
  - intros n p x e v' [H | [H | [H | [H | [H | H]]]]].
    + unfold Reserve, bind, get_capacity in H.
      destruct (n >? capacity_ v); [| done].
      destruct (ArrayPtr_new n); simpl in H; [| by inversion H].
      by destruct (move_to _ _ _ _ _).
    + rewrite Resize_unfold in H.
      destruct (Z.leb_spec n (size_ v)); [done |].
      pose proof (Resize_grows_spec v n Hwf ltac:(lia)) as Hspec.
      rewrite Resize_unfold in Hspec.
      destruct (Z.leb_spec n (size_ v)); [lia |].
      destruct ((if n >? capacity_ v then Reserve n else ret tt) v)
        as [[] v1 | e1 v1 |]; [| | done].
      * by destruct (uninitialized_value_construct _ _ _).
      * inversion H; subst. by destruct Hspec as (-> & -> & _).
    + pose proof (PushBack_spec v x Hwf) as Hspec. rewrite H in Hspec.
      by destruct Hspec as (-> & -> & _).
    + pose proof (PushBack_rvalue_spec v x Hwf) as Hspec. rewrite H in Hspec.
      by destruct Hspec as (-> & -> & _).
    + by destruct (Insert_throws v p x e v' Hwf H) as (-> & -> & _).
    + by destruct (Insert_rvalue_throws v p x e v' Hwf H) as (-> & -> & _).
Qed.

(** C6. For an index [i] of type [size_t], [At(i)] throws [out_of_range]
    exactly when [i >= size]; for [i < size] it returns the element that
    [operator[](i)] returns; the container is unchanged either way. *)
Theorem At_checked (v : SimpleVector) (i : Z) :
  wf v ->
  in_range i ->
  (size_ v <= i -> At i v = Throw out_of_range v)
  /\ (i < size_ v ->
      exists x,
        At i v = Ret x v
        /\ operator_subscript i v = Ret x v
        /\ elements v !! Z.to_nat i = Some x)
  /\ ((exists e v', At i v = Throw e v') <-> size_ v <= i).
Proof.
  intros (Hsize & Hlen & Hmax) [Hi _].
  assert (Hthrow : size_ v <= i -> At i v = Throw out_of_range v).
  { intros Hge. rewrite At_unfold, Z.geb_leb.
    destruct (Z.leb_spec (size_ v) i); [done | lia]. }
  assert (Hret : i < size_ v ->
            exists x, At i v = Ret x v /\ operator_subscript i v = Ret x v
                      /\ elements v !! Z.to_nat i = Some x).
  { intros Hlt. rewrite At_unfold, operator_subscript_unfold, Z.geb_leb.
    destruct (Z.leb_spec (size_ v) i); [lia |].
    destruct (slot_is_Some (items_ v) i) as [x Hx]; [lia |].
    rewrite Hx. exists x. split; [done |]. split; [done |].
    rewrite elements_lookup by lia. by rewrite <- slot_lookup. }
  split; [done |]. split; [done |]. split.
  - intros (e & v' & H).
    destruct (Z.le_gt_cases (size_ v) i) as [Hle | Hgt]; [done |].
    destruct (Hret ltac:(lia)) as (x & Hx & _). congruence.
  - intros Hge. exists out_of_range, v. by apply Hthrow.
Qed.

(** C10. [Insert(v.end(), x)] and [PushBack(x)] have the same outcome on
    the same live container, whatever [x] refers to: both return, leaving
    the same block, size and capacity (the growth step included) with the
    value [x] designated appended, or both throw [bad_alloc] and leave the
    container as it was, or both are undefined, which happens only when
    [x] refers to a slot the calls cannot read (a slot of a full
    container, or no slot of the block); the iterator returned points to
    the old [end()]. *)
Theorem Insert_at_end_is_PushBack (v : SimpleVector) (item : reference) :
  wf v ->
  match (e <- end_ ;; Insert e item) v, PushBack item v with
  | Ret it v1, Ret _ v2 =>
      v1 = v2 /\ it = size_ v
      /\ size_ v1 = size_ v + 1
      /\ exists x, designates item v = Some x /\ elements v1 = elements v ++ [x]
  | Throw e1 v1, Throw e2 v2 => e1 = e2 /\ v1 = v2
  | Undefined, Undefined => ~ valid_argument item v
  | _, _ => False
  end.
Proof.
  intros Hwf. pose proof Hwf as (Hsize & Hlen & Hmax).
  pose proof (PushBack_spec v item Hwf) as Hspec.
  unfold bind at 1, end_, bind at 1, get_size, ret. cbv beta iota.
  rewrite Insert_unfold. rewrite PushBack_unfold in *.
  pose proof (grow_if_full_spec v Hwf) as Hgrow.
  destruct (grow_if_full v) as [[] v1 | e v1 |] eqn:Hrun; [| done | done].
  rewrite (read_after_growth item v v1 Hwf Hrun) in *.
  destruct Hgrow as (Hwf1 & Hs1 & Hroom & _).
  pose proof Hwf1 as (Hsize1 & Hlen1 & Hmax1).
  cbv zeta. rewrite distance_from_begin by lia.
  unfold move_backward.
  destruct (Z.leb_spec (0 + (0 + size_ v)) (0 + size_ v1)); [| lia].
  replace (Z.to_nat (0 + size_ v1 - (0 + (0 + size_ v)))) with 0%nat by lia.
  simpl move_backward_loop. cbv iota.
  replace (0 + size_ v) with (size_ v1) by lia.
  rewrite (read_after_growth item v v1 Hwf Hrun).
  destruct (read item (items_ v) (size_ v <? capacity_ v)) as [x |] eqn:Hread.
  - destruct (store (items_ v1) (size_ v1) x) as [items1 |];
      [| by destruct Hspec as [[=] _]].
    destruct Hspec as (y & [= <-] & _ & Hs & Hel & _).
    split; [done |]. split; [lia |]. split; [done |].
    exists x. split; [by apply read_designates | done].
  - intros Hvalid. destruct (read_valid item v Hwf Hvalid) as [x Hx]. congruence.
Qed.

(** ** Constructors *)

Lemma construct_size_value (size : Z) (x : T) :
  0 <= size ->
  match construct (SimpleVector_size_value size x) with
  | Ret _ v =>
      wf v /\ size_ v = size /\ capacity_ v = size
      /\ elements v = replicate (Z.to_nat size) x
  | Throw e _ => e = bad_alloc /\ ArrayPtr_new size = None
  | Undefined => False
  end.
Proof.
  intros Hsize.
  unfold construct, SimpleVector_size_value, bind, set_size, set_capacity,
    get_capacity, set_items. simpl.
  destruct (ArrayPtr_new size) as [fresh |] eqn:Hnew; simpl; [| done].
  pose proof (ArrayPtr_new_length size fresh Hsize Hnew) as Hlen.
  apply ArrayPtr_new_Some in Hnew as (_ & Hmax & _).
  unfold fill. destruct (Z.leb_spec 0 (0 + size)); [| lia].
  destruct (fill_loop_spec (Z.to_nat (0 + size - 0)) 0 x fresh)
    as (items1 & -> & Hl1 & Hin & _); [lia | lia |].
  simpl. split; [unfold wf; simpl; lia |]. split; [done |]. split; [done |].
  unfold elements. simpl. rewrite take_ge by lia.
  apply list_eq. intros i.
  destruct (decide (Z.of_nat i < size)) as [Hlt | Hge].
  - rewrite Hin by lia. symmetry. apply lookup_replicate_2. lia.
  - rewrite lookup_ge_None_2 by lia.
    symmetry. apply lookup_ge_None_2. rewrite length_replicate. lia.
Qed.

Lemma construct_size (size : Z) :
  0 <= size ->
  match construct (SimpleVector_size size) with
  | Ret _ v =>
      wf v /\ size_ v = size /\ capacity_ v = size
      /\ elements v = replicate (Z.to_nat size) T0
  | Throw e _ => e = bad_alloc /\ ArrayPtr_new size = None
  | Undefined => False
  end.
Proof. apply construct_size_value. Qed.

Lemma construct_reserve (obj : ReserveProxyObj) :
  0 <= capacity_to_reserve_ obj ->
  match construct (SimpleVector_reserve obj) with
  | Ret _ v =>
      wf v /\ size_ v = 0 /\ capacity_ v = capacity_to_reserve_ obj
  | Throw e _ => e = bad_alloc /\ ArrayPtr_new (capacity_to_reserve_ obj) = None
  | Undefined => False
  end.
Proof.
  destruct obj as [n]. simpl. intros Hn.
  unfold construct, SimpleVector_reserve, bind, set_capacity, set_items. simpl.
  destruct (ArrayPtr_new n) as [fresh |] eqn:Hnew; simpl; [| done].
  pose proof (ArrayPtr_new_length n fresh Hn Hnew) as Hlen.
  apply ArrayPtr_new_Some in Hnew as (_ & Hmax & _).
  unfold fill. destruct (Z.leb_spec 0 (0 + n)); [| lia].
  destruct (fill_loop_spec (Z.to_nat (0 + n - 0)) 0 T0 fresh)
    as (items1 & -> & Hl1 & _ & _); [lia | lia |].
  simpl. split; [unfold wf; simpl; lia | done].
Qed.

(** A fresh block of [capacity] slots receiving the first [size] slots of
    another block. *)
Lemma copied_block (src : list T) (size capacity : Z) :
  0 <= size <= capacity -> size <= Z.of_nat (length src) ->
  match ArrayPtr_new capacity with
  | Some fresh =>
      exists items1,
        copy_to 0 (0 + size) 0 src fresh = Some items1
        /\ wf (mkSimpleVector items1 size capacity)
        /\ elements (mkSimpleVector items1 size capacity)
           = take (Z.to_nat size) src
  | None => True
  end.
Proof.
  intros Hsize Hsrc.
  destruct (ArrayPtr_new capacity) as [fresh |] eqn:Hnew; [| done].
  pose proof (ArrayPtr_new_length capacity fresh ltac:(lia) Hnew) as Hlen.
  apply ArrayPtr_new_Some in Hnew as (_ & Hmax & _).
  unfold copy_to. destruct (Z.leb_spec 0 (0 + size)); [| lia].
  destruct (copy_to_loop_spec (Z.to_nat (0 + size - 0)) 0 src fresh)
    as (items1 & -> & Hl1 & Hin & _); [lia | lia | lia |].
  exists items1. split; [done |]. split; [unfold wf; simpl; lia |].
  unfold elements. simpl. apply take_ext. intros i Hi. apply Hin. lia.
Qed.


Lemma construct_init (init : list T) :
  match construct (SimpleVector_init init) with
  | Ret _ v =>
      wf v /\ size_ v = Z.of_nat (length init)
      /\ capacity_ v = Z.of_nat (length init)
      /\ elements v = init
  | Throw e _ => e = bad_alloc /\ ArrayPtr_new (Z.of_nat (length init)) = None
  | Undefined => False
  end.
Proof.
  pose proof (copied_block init (Z.of_nat (length init)) (Z.of_nat (length init))
                ltac:(lia) ltac:(lia)) as Hcopy.
  unfold construct, SimpleVector_init, bind, set_size, set_capacity, set_items.
  cbv zeta.
  destruct (ArrayPtr_new (Z.of_nat (length init))) as [fresh |]; simpl; [| done].
  destruct Hcopy as (items1 & Hrun & Hwf & Hel).
  rewrite Z.add_0_l in Hrun. rewrite Hrun. simpl.
  split; [done |]. split; [done |]. split; [done |].
  rewrite Hel. apply take_ge. lia.
Qed.

(** ** The invariant under every member function *)







Lemma PopBack_spec (v : SimpleVector) :
  wf v ->
  exists v',
    PopBack v = Ret tt v'
    /\ wf v'
    /\ size_ v' = (if size_ v =? 0 then 0 else size_ v - 1)
    /\ capacity_ v' = capacity_ v /\ items_ v' = items_ v.
Proof.
  intros (Hsize & Hlen & Hmax).
  pose proof Hmax as Hmax'. rewrite PTRDIFF_MAX_value in Hmax'.
  unfold PopBack, bind, get_size, set_size. eexists. split; [done |].
  assert (Hdec : wrap (size_ v - (if size_ v =? 0 then 0 else 1))
                 = (if size_ v =? 0 then 0 else size_ v - 1)).
  { destruct (Z.eqb_spec (size_ v) 0) as [Hz | Hnz];
      rewrite wrap_small by (rewrite modulus_value; lia); lia. }
  unfold wf. simpl. rewrite Hdec.
  destruct (Z.eqb_spec (size_ v) 0); repeat split; try done; lia.
Qed.


(** ** Operations on two objects *)




(** ** A run of appends *)

Lemma ArrayPtr_new_is_Some (n : Z) :
  n <= PTRDIFF_MAX -> heap_ok n = true -> is_Some (ArrayPtr_new n).
Proof.
  intros Hn Hok. unfold ArrayPtr_new.
  destruct (n =? 0); [by eexists |].
  destruct (Z.leb_spec n PTRDIFF_MAX); [| lia].
  rewrite Hok. simpl. by eexists.
Qed.



(** One call of [PushBack], of either overload. *)
Lemma push_call_spec (p : push) (v : SimpleVector) :
  wf v ->
  match push_call p v with
  | Ret _ v' =>
      wf v' /\ size_ v' = size_ v + 1
      /\ (size_ v < capacity_ v -> capacity_ v' = capacity_ v)
      /\ (size_ v = capacity_ v ->
          capacity_ v' = Z.max 1 (capacity_ v * 2)
          /\ is_Some (ArrayPtr_new (Z.max 1 (capacity_ v * 2))))
      /\ (forall x, pushed_value p = Some x -> elements v' = elements v ++ [x])
  | Throw e v' =>
      e = bad_alloc /\ v' = v /\ size_ v = capacity_ v
      /\ ArrayPtr_new (Z.max 1 (capacity_ v * 2)) = None
  | Undefined => pushed_value p = None
  end.
Proof.
  intros Hwf. destruct p as [item | item]; simpl push_call.
  - pose proof (PushBack_spec v item Hwf) as H.
    destruct (PushBack item v) as [[] v' | e v' |]; [| done |].
    + destruct H as (y & Hread & Hwf' & Hs & Hel & Hroom & Hfull).
      split; [done |]. split; [done |]. split; [done |]. split; [done |].
      intros x Hx. destruct item as [z | i]; [| done].
      simpl in Hx, Hread. congruence.
    + destruct item as [z | i]; [| done]. by destruct H as [[=] _].
  - pose proof (PushBack_rvalue_spec v item Hwf) as H. unfold bind.
    destruct (PushBack_rvalue item v) as [r v' | e v' |]; [| done |].
    + unfold ret.
      destruct H as (Hwf' & Hs & Hroom & Hfull & Hsame & _).
      split; [done |]. split; [done |]. split; [done |]. split; [done |].
      intros x Hx. destruct item as [z | i]; [| done].
      injection Hx as ->.
      pose proof (PushBack_External_spec v x Hwf) as Hcp.
      rewrite (Hsame x eq_refl) in Hcp. apply Hcp.
    + destruct item as [z | i]; [| done]. by destruct H as [Hinvalid _].
Qed.

(** A run of calls of [PushBack], of either overload and with any
    arguments: when it returns, every call has added one to the size and
    the values of the arguments outside the container stand at the end in
    the order of the calls; it throws only [bad_alloc]; it is undefined
    only if an argument is a slot of the container. *)
Lemma PushBack_run_spec (ps : list push) : forall v : SimpleVector,
  wf v ->
  match PushBack_run ps v with
  | Ret _ v' =>
      wf v' /\ size_ v' = size_ v + Z.of_nat (length ps)
      /\ (forall xs, map pushed_value ps = map Some xs ->
            elements v' = elements v ++ xs)
  | Throw e v' => e = bad_alloc /\ wf v'
  | Undefined => exists p, p ∈ ps /\ pushed_value p = None
  end.
Proof.
  induction ps as [| p ps IH]; intros v Hwf.
  - simpl. unfold ret. split; [done |]. split; [lia |].
    intros [| x xs] Hxs; [by rewrite app_nil_r | done].
  - simpl PushBack_run. unfold bind.
    pose proof (push_call_spec p v Hwf) as Hpush.
    destruct (push_call p v) as [[] v1 | e v1 |].
    + destruct Hpush as (Hwf1 & Hs1 & _ & _ & Hel1).
      specialize (IH v1 Hwf1).
      destruct (PushBack_run ps v1) as [[] v2 | e v2 |].
      * destruct IH as (Hwf2 & Hs2 & Hel2).
        split; [done |]. split; [simpl length; lia |].
        intros [| x xs] Hxs; [done |]. injection Hxs as Hx Hxs.
        by rewrite (Hel2 xs Hxs), (Hel1 x Hx), <- app_assoc.
      * done.
      * destruct IH as (q & Hq & Hnone). exists q.
        split; [by apply list_elem_of_further | done].
    + by destruct Hpush as (-> & -> & _).
    + exists p. split; [apply list_elem_of_here | done].
Qed.

(** The run returns when every argument is outside the container and the
    allocator serves the requests up to twice the final size. *)
Lemma PushBack_run_returns (ps : list push) : forall v : SimpleVector,
  wf v ->
  capacity_ v <= Z.max 1 (2 * size_ v) ->
  Forall (fun p => is_Some (pushed_value p)) ps ->
  (forall n, 0 <= n <= Z.max 1 (2 * (size_ v + Z.of_nat (length ps))) ->
     is_Some (ArrayPtr_new n)) ->
  exists v', PushBack_run ps v = Ret tt v'.
Proof.
  induction ps as [| p ps IH]; intros v Hwf Hcap Hext Halloc.
  - by exists v.
  - simpl PushBack_run. unfold bind.
    pose proof Hwf as (Hsize & Hlen & Hmax).
    pose proof (push_call_spec p v Hwf) as Hpush.
    simpl length in Halloc.
    apply Forall_cons in Hext as [[x Hx] Hext].
    destruct (push_call p v) as [[] v1 | e v1 |].
    + destruct Hpush as (Hwf1 & Hs1 & Hroom & Hfull & _).
      apply IH; [done | | done |].
      * destruct (Z.eq_dec (size_ v) (capacity_ v)) as [Heq | Hne].
        -- destruct (Hfull Heq) as [-> _]. lia.
        -- rewrite Hroom by lia. lia.
      * intros n Hn. apply Halloc. lia.
    + destruct Hpush as (_ & _ & Hfull & Hnone).
      destruct (Halloc (Z.max 1 (capacity_ v * 2)) ltac:(lia)) as [b Hb].
      congruence.
    + congruence.
Qed.


(** C7. Move construction gives the new object the size, the capacity, the
    block and so the element sequence of its source, and leaves the source
    with size 0 and capacity 0; move assignment to a distinct object does
    the same between two live objects and touches no third object.  Neither
    throws nor is undefined: the move constructor is a total function, and
    the move assignment returns for any two live objects. *)
Theorem move_transfers_ownership :
  (forall other : SimpleVector,
     size_ (fst (SimpleVector_move other)) = size_ other
     /\ capacity_ (fst (SimpleVector_move other)) = capacity_ other
     /\ items_ (fst (SimpleVector_move other)) = items_ other
     /\ elements (fst (SimpleVector_move other)) = elements other
     /\ size_ (snd (SimpleVector_move other)) = 0
     /\ capacity_ (snd (SimpleVector_move other)) = 0)
  /\ (forall (objs : gmap nat SimpleVector) (this other : nat) (l r : SimpleVector),
       objs !! this = Some l -> objs !! other = Some r -> this <> other ->
       exists (objs' : gmap nat SimpleVector) (l' r' : SimpleVector),
         operator_assign_move this other objs = Ret tt objs'
         /\ objs' !! this = Some l' /\ objs' !! other = Some r'
         /\ size_ l' = size_ r /\ capacity_ l' = capacity_ r
         /\ items_ l' = items_ r /\ elements l' = elements r
         /\ size_ r' = 0 /\ capacity_ r' = 0
         /\ (forall a : nat, a <> this -> a <> other -> objs' !! a = objs !! a))
  /\ (forall (objs : gmap nat SimpleVector) (this other : nat),
       is_Some (objs !! this) -> is_Some (objs !! other) ->
       exists objs' : gmap nat SimpleVector,
         operator_assign_move this other objs = Ret tt objs').
Proof.
  split; [| split].
  - intros other. by unfold SimpleVector_move, elements.
  - intros objs this other l r Hl Hr Hne.
    unfold operator_assign_move. rewrite Hl, Hr.
    destruct (decide (this ≠ other)); [| done].
    eexists _, _, _. split; [done |].
    split; [rewrite lookup_insert_ne by done; apply lookup_insert_eq |].
    split; [apply lookup_insert_eq |].
    repeat split; try done.
    intros a Ha1 Ha2. by rewrite !lookup_insert_ne.
  - intros objs this other [l Hl] [r Hr].
    unfold operator_assign_move. rewrite Hl, Hr.
    destruct (decide (this ≠ other)); by eexists.
Qed.

(** C8. On two live containers [operator==] is defined and is true exactly
    when the element sequences have the same length and equal elements at
    every position; [operator<] is defined and is true exactly when the
    first element sequence precedes the second in dictionary order.  Both
    depend on the element sequences alone, so not on the capacities. *)
Theorem comparison_operators (lhs rhs : SimpleVector) :
  wf lhs -> wf rhs ->
  (exists b, operator_eq lhs rhs = Some b
             /\ (b = true <-> elementwise_eq (elements lhs) (elements rhs)))
  /\ (exists b, operator_lt lhs rhs = Some b
               /\ (b = true <-> lex_lt (elements lhs) (elements rhs)))
  /\ (forall lhs' rhs' : SimpleVector,
        wf lhs' -> wf rhs' ->
        elements lhs' = elements lhs -> elements rhs' = elements rhs ->
        operator_eq lhs' rhs' = operator_eq lhs rhs
        /\ operator_lt lhs' rhs' = operator_lt lhs rhs).
Proof.
  intros Hl Hr. split; [| split].
  - eexists. split; [by apply operator_eq_elements |]. apply all_eq_spec.
  - eexists. split; [by apply operator_lt_elements |]. apply lex_ltb_spec.
  - intros lhs' rhs' Hl' Hr' Hel Her.
    rewrite !operator_eq_elements, !operator_lt_elements by done.
    by rewrite Hel, Her.
Qed.


(** ** Further properties of the member functions *)

(** [At] is the lookup in the element sequence. *)
Lemma At_elements (v : SimpleVector) (i : Z) :
  wf v -> 0 <= i ->
  At i v = match elements v !! Z.to_nat i with
           | Some x => Ret x v
           | None => Throw out_of_range v
           end.
Proof.
  intros (Hsize & Hlen & _) Hi. rewrite At_unfold, Z.geb_leb.
  destruct (Z.leb_spec (size_ v) i) as [Hge | Hlt].
  - unfold elements. by rewrite lookup_take_ge by lia.
  - rewrite elements_lookup by lia. rewrite <- slot_lookup by lia.
    by destruct (slot_is_Some (items_ v) i) as [x ->]; [lia |].
Qed.

(** Appends into a container with room: no call of [Reserve] allocates. *)
Lemma PushBack_all_in_room (xs : list T) : forall v : SimpleVector,
  wf v ->
  size_ v + Z.of_nat (length xs) <= capacity_ v ->
  exists v',
    PushBack_all xs v = Ret tt v'
    /\ wf v'
    /\ capacity_ v' = capacity_ v
    /\ size_ v' = size_ v + Z.of_nat (length xs)
    /\ elements v' = elements v ++ xs.
Proof.
  induction xs as [| x xs IH]; intros v Hwf Hroom.
  - exists v. simpl. unfold ret. rewrite app_nil_r.
    repeat split; try done; try apply Hwf. lia.
  - simpl PushBack_all. unfold bind. simpl length in Hroom.
    pose proof (PushBack_External_spec v x Hwf) as Hpush.
    destruct (PushBack (External x) v) as [[] v1 | e v1 |]; [| | done].
    + destruct Hpush as (Hwf1 & Hs1 & Hel1 & Hcap1 & _).
      specialize (Hcap1 ltac:(lia)).
      destruct (IH v1 Hwf1 ltac:(lia)) as (v' & -> & Hwf' & Hcap' & Hs' & Hel').
      exists v'. split; [done |]. split; [done |]. split; [congruence |].
      split; [simpl length; lia |].
      by rewrite Hel', Hel1, <- app_assoc.
    + destruct Hpush as (_ & _ & Hfull & _). lia.
Qed.

Lemma all_eq_refl (xs : list T) :
  (forall x, eqT x x = true) -> all_eq xs xs = true.
Proof. intros Hrefl. induction xs as [| x xs IH]; simpl; [done |]. by rewrite Hrefl. Qed.

(** X1. The copy constructor, when the allocation is served, builds a
    container with the size, the capacity and the element sequence of its
    source; the slots of the new block past the size are value-initialized
    whatever the source holds there; the copy compares equal to its source
    when the element equality is reflexive.  When the allocation fails it
    throws [bad_alloc]. *)
Theorem copy_constructor_copies (other : SimpleVector) :
  wf other ->
  (ArrayPtr_new (capacity_ other) = None ->
   exists s, construct (SimpleVector_copy other) = Throw bad_alloc s)
  /\ (is_Some (ArrayPtr_new (capacity_ other)) ->
      exists v,
        construct (SimpleVector_copy other) = Ret tt v
        /\ wf v
        /\ size_ v = size_ other
        /\ capacity_ v = capacity_ other
        /\ elements v = elements other
        /\ (forall i, size_ other <= i < capacity_ other ->
              slot (items_ v) i = Some T0)
        /\ ((forall x, eqT x x = true) -> operator_eq v other = Some true)).
Proof.
  intros Hwf. pose proof Hwf as (Hsize & Hlen & Hmax).
  unfold construct, SimpleVector_copy, bind, set_size, set_capacity, set_items.
  split.
  - intros ->. by eexists.
  - intros [fresh Hnew]. rewrite Hnew. simpl.
    pose proof (ArrayPtr_new_length (capacity_ other) fresh ltac:(lia) Hnew)
      as Hfresh.
    unfold copy_to. destruct (Z.leb_spec 0 (0 + size_ other)); [| lia].
    destruct (copy_to_loop_spec (Z.to_nat (0 + size_ other - 0)) 0
                (items_ other) fresh)
      as (items1 & -> & Hl1 & Hin & Hout); [lia | lia | lia |].
    simpl. eexists. split; [done |].
    assert (Hwf' : wf (mkSimpleVector items1 (size_ other) (capacity_ other)))
      by (unfold wf; simpl; lia).
    assert (Hel : elements (mkSimpleVector items1 (size_ other) (capacity_ other))
                  = elements other).
    { unfold elements. simpl. apply take_ext. intros i Hi. apply Hin. lia. }
    split; [done |]. split; [done |]. split; [done |]. split; [done |].
    split.
    + intros i Hi. simpl. rewrite slot_lookup by lia.
      rewrite Hout by lia.
      apply ArrayPtr_new_Some in Hnew as (-> & _ & _).
      apply lookup_replicate_2. lia.
    + intros Hrefl. rewrite operator_eq_elements by done.
      rewrite Hel. by rewrite all_eq_refl.
Qed.

(** X2. Copy assignment on the store of objects: assigning an object to
    itself changes nothing; otherwise, when the allocation is served, the
    destination gets the size, the capacity and the element sequence of
    the source and every other object, the source included, stays as it
    was; when the allocation fails the call throws [bad_alloc] and the
    whole store stays as it was. *)
Theorem copy_assignment_copies (objs : gmap nat SimpleVector)
    (this rhs : nat) (l r : SimpleVector) :
  objs !! this = Some l -> objs !! rhs = Some r -> wf r ->
  (this = rhs -> operator_assign_copy this rhs objs = Ret tt objs)
  /\ (this <> rhs -> ArrayPtr_new (capacity_ r) = None ->
      operator_assign_copy this rhs objs = Throw bad_alloc objs)
  /\ (this <> rhs -> is_Some (ArrayPtr_new (capacity_ r)) ->
      exists (objs' : gmap nat SimpleVector) (l' : SimpleVector),
        operator_assign_copy this rhs objs = Ret tt objs'
        /\ objs' !! this = Some l'
        /\ wf l'
        /\ size_ l' = size_ r
        /\ capacity_ l' = capacity_ r
        /\ elements l' = elements r
        /\ (forall a : nat, a <> this -> objs' !! a = objs !! a)).
Proof.
  intros Hl Hr Hwf. pose proof Hwf as (Hsize & Hlen & Hmax).
  unfold operator_assign_copy. rewrite Hl, Hr.
  split; [| split].
  - intros Heq. by destruct (decide (this ≠ rhs)).
  - intros Hne ->. by destruct (decide (this ≠ rhs)).
  - intros Hne [fresh Hnew]. destruct (decide (this ≠ rhs)); [| done].
    pose proof (copied_block (items_ r) (size_ r) (capacity_ r)
                  ltac:(lia) ltac:(lia)) as Hcopy.
    rewrite Hnew in *. destruct Hcopy as (items1 & -> & Hwf1 & Hel1).
    eexists _, _. split; [done |].
    split; [apply lookup_insert_eq |].
    split; [done |]. split; [done |]. split; [done |].
    split; [done |].
    intros a Ha. by rewrite lookup_insert_ne.
Qed.

(** X3. The constructors from a size and from a size and a value, when the
    allocation is served, build a container whose size and capacity are
    the size asked for and whose elements are that many copies of the
    value ([Type()] for the first); when the allocation fails they throw
    [bad_alloc]. *)
Theorem sized_constructors_fill (size : Z) (value : T) :
  in_range size ->
  (is_Some (ArrayPtr_new size) ->
   (exists v,
      construct (SimpleVector_size_value size value) = Ret tt v
      /\ wf v /\ size_ v = size /\ capacity_ v = size
      /\ elements v = replicate (Z.to_nat size) value)
   /\ (exists v,
      construct (SimpleVector_size size) = Ret tt v
      /\ wf v /\ size_ v = size /\ capacity_ v = size
      /\ elements v = replicate (Z.to_nat size) T0))
  /\ (ArrayPtr_new size = None ->
      (exists s, construct (SimpleVector_size_value size value) = Throw bad_alloc s)
      /\ (exists s, construct (SimpleVector_size size) = Throw bad_alloc s)).
Proof.
  intros [Hsize _].
  pose proof (construct_size_value size value Hsize) as Hv.
  pose proof (construct_size size Hsize) as H0.
  split.
  - intros [fresh Hnew]. split.
    + destruct (construct (SimpleVector_size_value size value))
        as [[] v | e s |]; [| | done].
      * by exists v.
      * destruct Hv as [_ Hnone]. congruence.
    + destruct (construct (SimpleVector_size size)) as [[] v | e s |]; [| | done].
      * by exists v.
      * destruct H0 as [_ Hnone]. congruence.
  - intros Hnone.
    unfold construct, SimpleVector_size, SimpleVector_size_value, bind,
      set_size, set_capacity, get_capacity. simpl.
    rewrite Hnone. simpl. split; by eexists.
Qed.

(** X4. The constructor from an initializer list, when the allocation is
    served, builds a container whose elements are those of the list, in
    order, and whose size and capacity are its length; [At] then reads the
    list. *)
Theorem initializer_list_constructor_copies (init : list T) :
  is_Some (ArrayPtr_new (Z.of_nat (length init))) ->
  exists v,
    construct (SimpleVector_init init) = Ret tt v
    /\ wf v
    /\ size_ v = Z.of_nat (length init)
    /\ capacity_ v = Z.of_nat (length init)
    /\ elements v = init
    /\ (forall i : nat,
          At (Z.of_nat i) v
          = match init !! i with
            | Some x => Ret x v
            | None => Throw out_of_range v
            end).
Proof.
  intros [fresh Hnew]. pose proof (construct_init init) as H.
  destruct (construct (SimpleVector_init init)) as [[] v | e s |]; [| | done].
  - destruct H as (Hwf & Hs & Hc & Hel). exists v.
    repeat split; try done; try apply Hwf.
    intros i. rewrite At_elements by (done || lia).
    by rewrite Nat2Z.id, Hel.
  - destruct H as [_ Hnone]. congruence.
Qed.

(** X5. The constructor from a reservation, when the allocation is served,
    builds an empty container with the capacity asked for; appending up to
    that many elements afterwards keeps the capacity: none of the appends
    reallocates. *)
Theorem reserving_constructor_reserves (capacity : Z) (xs : list T) :
  in_range capacity ->
  is_Some (ArrayPtr_new capacity) ->
  Z.of_nat (length xs) <= capacity ->
  exists v v',
    construct (SimpleVector_reserve (Reserve_proxy capacity)) = Ret tt v
    /\ wf v /\ size_ v = 0 /\ capacity_ v = capacity /\ elements v = []
    /\ PushBack_all xs v = Ret tt v'
    /\ capacity_ v' = capacity
    /\ size_ v' = Z.of_nat (length xs)
    /\ elements v' = xs.
Proof.
  intros [Hcap _] [fresh Hnew] Hlen.
  pose proof (construct_reserve (Reserve_proxy capacity) Hcap) as H.
  destruct (construct (SimpleVector_reserve (Reserve_proxy capacity)))
    as [[] v | e s |]; [| | done].
  - destruct H as (Hwf & Hs & Hc). simpl in Hc.
    assert (Hel : elements v = []) by (unfold elements; by rewrite Hs).
    destruct (PushBack_all_in_room xs v Hwf ltac:(lia))
      as (v' & Hrun & _ & Hc' & Hs' & Hel').
    exists v, v'. repeat split; try done; try apply Hwf; try congruence.
    + lia.
    + by rewrite Hel', Hel.
  - destruct H as [_ Hnone]. simpl in Hnone. congruence.
Qed.

(** X6. Appending to a container with room for the elements returns
    whatever the memory system answers, keeps the capacity, and extends
    the element sequence in order: [PushBack] calls [Reserve] only when
    the container is full. *)
Theorem PushBack_with_room_never_allocates (v : SimpleVector) (xs : list T) :
  wf v ->
  size_ v + Z.of_nat (length xs) <= capacity_ v ->
  exists v',
    PushBack_all xs v = Ret tt v'
    /\ capacity_ v' = capacity_ v
    /\ size_ v' = size_ v + Z.of_nat (length xs)
    /\ elements v' = elements v ++ xs
    /\ wf v'.
Proof.
  intros Hwf Hroom.
  destruct (PushBack_all_in_room xs v Hwf Hroom)
    as (v' & Hrun & Hwf' & Hc & Hs & Hel).
  by exists v'.
Qed.

(** X7. [PopBack] always returns and never touches the block or the
    capacity; on an empty container it changes nothing, on a non-empty one
    it drops the last element. *)
Theorem PopBack_drops_last (v : SimpleVector) :
  wf v ->
  exists v',
    PopBack v = Ret tt v'
    /\ wf v'
    /\ items_ v' = items_ v
    /\ capacity_ v' = capacity_ v
    /\ (size_ v = 0 -> v' = v)
    /\ (0 < size_ v ->
        size_ v' = size_ v - 1
        /\ elements v' = take (Z.to_nat (size_ v - 1)) (elements v)
        /\ exists x, elements v = elements v' ++ [x]).
Proof.
  intros Hwf. pose proof Hwf as (Hsize & Hlen & Hmax).
  destruct (PopBack_spec v Hwf) as (v' & Hrun & Hwf' & Hs & Hc & Hi).
  exists v'. split; [done |]. split; [done |]. split; [done |].
  split; [done |]. split.
  - intros Hz. rewrite Hz in Hs. simpl in Hs.
    destruct v, v'; simpl in *; congruence.
  - intros Hpos.
    destruct (Z.eqb_spec (size_ v) 0) as [| _]; [lia |].
    assert (Hel : elements v' = take (Z.to_nat (size_ v - 1)) (elements v)).
    { unfold elements. rewrite Hs, Hi, take_take. f_equal. lia. }
    split; [done |]. split; [done |].
    destruct (slot_is_Some (items_ v) (size_ v - 1)) as [x Hx]; [lia |].
    rewrite slot_lookup in Hx by lia.
    exists x. unfold elements. rewrite Hs, Hi.
    replace (Z.to_nat (size_ v)) with (S (Z.to_nat (size_ v - 1))) by lia.
    by apply take_S_r.
Qed.

(** X8. [PushBack] of an argument the call can read (an object outside
    the container, or a slot of a container with room) followed by
    [PopBack] gives back the size and the element sequence (the capacity
    may have grown); the overload taking [Type&&], given an object outside
    the container, leaves the state of the other overload. *)
Theorem PushBack_PopBack_roundtrip (v : SimpleVector) (item : reference) :
  wf v ->
  valid_argument item v ->
  (size_ v = capacity_ v -> is_Some (ArrayPtr_new (Z.max 1 (capacity_ v * 2)))) ->
  exists v1 v2,
    PushBack item v = Ret tt v1
    /\ (forall y, item = External y -> exists r, PushBack_rvalue item v = Ret r v1)
    /\ PopBack v1 = Ret tt v2
    /\ size_ v2 = size_ v
    /\ elements v2 = elements v
    /\ capacity_ v2 = capacity_ v1.
Proof.
  intros Hwf Hvalid Halloc. pose proof Hwf as (Hsize & _).
  pose proof (PushBack_spec v item Hwf) as Hpush.
  destruct (PushBack item v) as [[] v1 | e v1 |] eqn:Hrun.
  - destruct Hpush as (x & _ & Hwf1 & Hs1 & Hel1 & _).
    destruct (PopBack_spec v1 Hwf1) as (v2 & Hpop & _ & Hs2 & Hc2 & Hi2).
    destruct (Z.eqb_spec (size_ v1) 0) as [| _]; [lia |].
    exists v1, v2. split; [done |].
    split.
    { intros y ->.
      pose proof (PushBack_rvalue_same_state v y Hwf) as Hrv.
      rewrite Hrun in Hrv.
      destruct (PushBack_rvalue (External y) v) as [r v3 | |]; [| done | done].
      subst v3. by exists r. }
    split; [done |]. split; [lia |].
    split; [| done].
    transitivity (take (Z.to_nat (size_ v)) (elements v1)).
    + unfold elements. rewrite Hs2, Hi2, take_take. f_equal. lia.
    + rewrite Hel1. apply take_app_length'.
      rewrite elements_length by done. done.
  - destruct Hpush as (_ & _ & Hfull & Hnone).
    destruct (Halloc Hfull) as [b Hb]. congruence.
  - destruct Hpush as [Hnone _].
    destruct (read_valid item v Hwf Hvalid) as [x Hx]. congruence.
Qed.

(** X9. [Erase] at a position [p] in [[0, size)] always returns the
    iterator [begin() + p], removes the element at [p], keeps the elements
    before it in place and moves those after it one slot toward the
    beginning in the same order; the size drops by one and the capacity
    stays. *)
Theorem Erase_removes_element (v : SimpleVector) (p : Z) :
  wf v -> 0 <= p < size_ v ->
  exists v',
    Erase p v = Ret p v'
    /\ wf v'
    /\ size_ v' = size_ v - 1
    /\ capacity_ v' = capacity_ v
    /\ elements v' = take (Z.to_nat p) (elements v) ++ drop (S (Z.to_nat p)) (elements v)
    /\ (forall i : nat, Z.of_nat i < p -> elements v' !! i = elements v !! i)
    /\ (forall i : nat, p <= Z.of_nat i -> elements v' !! i = elements v !! S i).
Proof.
  intros Hwf Hp.
  destruct (Erase_spec v p Hwf Hp) as (v' & Hrun & Hwf' & Hs & Hc & Hel).
  pose proof (elements_length v Hwf) as Hlen.
  exists v'. split; [done |]. split; [done |]. split; [done |].
  split; [done |]. split; [done |]. rewrite Hel. split.
  - intros i Hi. rewrite lookup_app_l by (rewrite length_take; lia).
    apply lookup_take_lt. lia.
  - intros i Hi. rewrite lookup_app_r by (rewrite length_take; lia).
    rewrite length_take_le by lia. rewrite lookup_drop. f_equal. lia.
Qed.

(** X10. On a non-empty container [Erase] at the last element and
    [PopBack] end in the same state: the same block, size and capacity. *)
Theorem Erase_last_is_PopBack (v : SimpleVector) :
  wf v -> 0 < size_ v ->
  exists v',
    Erase (size_ v - 1) v = Ret (size_ v - 1) v'
    /\ PopBack v = Ret tt v'
    /\ items_ v' = items_ v.
Proof.
  intros (Hsize & Hlen & Hmax) Hpos.
  rewrite Erase_unfold. cbv zeta.
  rewrite distance_from_begin by lia.
  unfold move_within.
  destruct (Z.leb_spec (0 + (size_ v - 1) + 1) (0 + size_ v)); [| lia].
  replace (Z.to_nat (0 + size_ v - (0 + (size_ v - 1) + 1))) with 0%nat by lia.
  simpl move_loop. eexists. split; [done |].
  unfold PopBack, bind, get_size, set_size.
  destruct (Z.eqb_spec (size_ v) 0); [lia | done].
Qed.

(** X11. [Erase] at a position [p] followed by [Insert] at [p] of an
    argument that holds the erased value, and is an object outside the
    container or an element before [p], gives back the size, the capacity
    and the element sequence, and never allocates. *)
Theorem Erase_Insert_roundtrip (v : SimpleVector) (p : Z)
    (value : reference) (x : T) :
  wf v -> 0 <= p < size_ v ->
  elements v !! Z.to_nat p = Some x ->
  match value with
  | External y => y = x
  | Element i => 0 <= i < p /\ elements v !! Z.to_nat i = Some x
  end ->
  exists v1 v2,
    Erase p v = Ret p v1
    /\ Insert p value v1 = Ret p v2
    /\ size_ v2 = size_ v
    /\ capacity_ v2 = capacity_ v
    /\ elements v2 = elements v.
Proof.
  intros Hwf Hp Hx Hvalue. pose proof Hwf as (Hsize & _).
  pose proof (elements_length v Hwf) as Hlen.
  destruct (Erase_spec v p Hwf Hp) as (v1 & Hrun & Hwf1 & Hs1 & Hc1 & Hel1).
  assert (Hquiet : undisturbed value p v1).
  { destruct value as [y | i]; simpl; [done | lia]. }
  assert (Hdes : designates value v1 = Some x).
  { destruct value as [y | i]; simpl; [by rewrite Hvalue |].
    destruct Hvalue as [Hi Hxi].
    rewrite slot_lookup by lia.
    rewrite <- (elements_lookup v1) by lia.
    rewrite Hel1, lookup_app_l by (rewrite length_take; lia).
    rewrite lookup_take_lt by lia. done. }
  destruct (Insert_returns v1 p value Hwf1 ltac:(lia)
              (undisturbed_valid value p v1 ltac:(lia) Hquiet))
    as (v2 & y & Hins & _ & Hs2 & Hc2 & Hel2 & _ & Hsame);
    [intros Hfull; lia |].
  assert (y = x) as -> by (specialize (Hsame Hquiet); congruence).
  exists v1, v2. split; [done |]. split; [done |]. split; [lia |].
  split.
  - rewrite Hc2. destruct (Z.eqb_spec (size_ v1) (capacity_ v1)); [lia | done].
  - rewrite Hel2, Hel1.
    rewrite take_app_length' by (rewrite length_take; lia).
    rewrite drop_app_length' by (rewrite length_take; lia).
    by apply take_drop_middle.
Qed.

(** X12. [Erase] has no guard: at a position at or past [end()], in
    particular on an empty container, the range it moves is reversed and
    the behaviour is undefined (where [PopBack] on an empty container
    returns and changes nothing). *)
Theorem Erase_past_end_is_undefined (v : SimpleVector) (p : Z) :
  wf v -> size_ v <= p <= PTRDIFF_MAX ->
  Erase p v = Undefined.
Proof.
  intros (Hsize & Hlen & Hmax) Hp.
  rewrite Erase_unfold. cbv zeta.
  rewrite distance_from_begin by lia.
  unfold move_within.
  destruct (Z.leb_spec (0 + p + 1) (0 + size_ v)); [lia | done].
Qed.

Lemma SimpleVector_eta (v : SimpleVector) :
  mkSimpleVector (items_ v) (size_ v) (capacity_ v) = v.
Proof. by destruct v. Qed.

(** X13. [swap] exchanges the two objects and touches no other object of
    the store; swapping twice, and swapping an object with itself, give
    the store back. *)
Theorem swap_exchanges (objs : gmap nat SimpleVector)
    (this other : nat) (l r : SimpleVector) :
  objs !! this = Some l -> objs !! other = Some r ->
  exists objs' : gmap nat SimpleVector,
    swap this other objs = Ret tt objs'
    /\ objs' !! this = Some r
    /\ objs' !! other = Some l
    /\ (forall a : nat, a <> this -> a <> other -> objs' !! a = objs !! a)
    /\ swap this other objs' = Ret tt objs
    /\ (this = other -> objs' = objs).
Proof.
  intros Hl Hr. unfold swap at 1. rewrite Hl, Hr, !SimpleVector_eta.
  set (objs' := <[other := l]> (<[this := r]> objs)).
  assert (Hthis : objs' !! this = Some r).
  { unfold objs'. destruct (decide (other = this)) as [-> | Hne].
    - rewrite lookup_insert_eq. congruence.
    - rewrite lookup_insert_ne by done. apply lookup_insert_eq. }
  assert (Hother : objs' !! other = Some l)
    by (unfold objs'; apply lookup_insert_eq).
  assert (Hback : <[other := r]> (<[this := l]> objs') = objs).
  { apply map_eq. intros a. unfold objs'.
    destruct (decide (a = other)) as [-> | Ho].
    - by rewrite lookup_insert_eq.
    - rewrite (lookup_insert_ne _ other a) by done.
      destruct (decide (a = this)) as [-> | Ht].
      + by rewrite lookup_insert_eq.
      + by rewrite !lookup_insert_ne. }
  exists objs'. split; [done |]. split; [done |]. split; [done |].
  split; [| split].
  - intros a Ht Ho. unfold objs'. by rewrite !lookup_insert_ne.
  - unfold swap. rewrite Hthis, Hother, !SimpleVector_eta. by rewrite Hback.
  - intros ->. apply map_eq. intros a. unfold objs'.
    destruct (decide (a = other)) as [-> | Ho].
    + rewrite lookup_insert_eq. congruence.
    + by rewrite !lookup_insert_ne.
Qed.

Lemma lex_ltb_asym (xs : list T) : forall ys,
  (forall x y, ltT x y = true -> ltT y x = false) ->
  lex_ltb xs ys = true -> lex_ltb ys xs = false.
Proof.
  induction xs as [| x xs IH]; intros [| y ys] Hasym; simpl; try done.
  destruct (ltT x y) eqn:Hxy.
  - by rewrite (Hasym x y Hxy).
  - destruct (ltT y x) eqn:Hyx; [done |]. by apply IH.
Qed.

Lemma lex_ltb_trans (xs : list T) : forall ys zs,
  (forall x y, ltT x y = true -> ltT y x = false) ->
  (forall x y z, ltT x y = true -> ltT x z = true \/ ltT z y = true) ->
  lex_ltb xs ys = true -> lex_ltb ys zs = true -> lex_ltb xs zs = true.
Proof.
  induction xs as [| x xs IH]; intros [| y ys] [| z zs] Hasym Hco;
    simpl; try done.
  destruct (ltT x y) eqn:Hxy.
  - intros _. destruct (ltT y z) eqn:Hyz.
    + intros _. destruct (Hco x y z Hxy) as [-> | Hzy]; [done |].
      rewrite (Hasym y z Hyz) in Hzy. done.
    + destruct (ltT z y) eqn:Hzy; [done |]. intros _.
      destruct (Hco x y z Hxy) as [-> | Hzy']; [done | congruence].
  - destruct (ltT y x) eqn:Hyx; [done |]. intros Hxs.
    destruct (ltT y z) eqn:Hyz.
    + intros _. destruct (Hco y z x Hyz) as [Hyx' | ->]; [congruence | done].
    + destruct (ltT z y) eqn:Hzy; [done |]. intros Hys.
      destruct (ltT x z) eqn:Hxz; [done |].
      destruct (ltT z x) eqn:Hzx.
      * destruct (Hco z x y Hzx) as [Hzy' | Hyx']; congruence.
      * by apply (IH ys zs).
Qed.

(** X14. When the element order is a strict weak order (asymmetric, and
    an element below another is below, or the other above, any third),
    [operator<] on live containers is a strict order: no container is
    below itself, no two are below each other, and it is transitive;
    [operator<=] is total; and [operator>], [operator<=], [operator>=]
    are always defined. *)
Theorem ordering_operators_strict_order (a b c : SimpleVector) :
  wf a -> wf b -> wf c ->
  (forall x y, ltT x y = true -> ltT y x = false) ->
  (forall x y z, ltT x y = true -> ltT x z = true \/ ltT z y = true) ->
  operator_lt a a = Some false
  /\ (operator_lt a b = Some true -> operator_lt b a = Some false)
  /\ (operator_lt a b = Some true -> operator_lt b c = Some true ->
      operator_lt a c = Some true)
  /\ (operator_le a b = Some true \/ operator_le b a = Some true)
  /\ (operator_gt a b = Some true <-> operator_lt b a = Some true)
  /\ (operator_le a b = Some true <-> operator_gt a b = Some false)
  /\ (operator_ge a b = Some true <-> operator_lt a b = Some false).
Proof.
  intros Ha Hb Hc Hasym Hco.
  unfold operator_le, operator_gt, operator_ge.
  rewrite !operator_lt_elements by done. simpl.
  assert (Hirr : forall l, lex_ltb l l = false).
  { intros l. destruct (lex_ltb l l) eqn:H; [| done].
    by rewrite (lex_ltb_asym l l Hasym H) in H. }
  split; [by rewrite Hirr |].
  split; [intros [= H]; by rewrite (lex_ltb_asym _ _ Hasym H) |].
  split.
  { intros [= H1] [= H2]. by rewrite (lex_ltb_trans _ _ _ Hasym Hco H1 H2). }
  split.
  { destruct (lex_ltb (elements b) (elements a)) eqn:H; [| by left].
    right. by rewrite (lex_ltb_asym _ _ Hasym H). }
  split; [done |].
  split; by destruct (lex_ltb _ _).
Qed.

Lemma all_eq_sym (xs : list T) : forall ys,
  (forall x y, eqT x y = true -> eqT y x = true) ->
  all_eq xs ys = true -> all_eq ys xs = true.
Proof.
  induction xs as [| x xs IH]; intros [| y ys] Hsym; simpl; try done.
  intros [Hxy Hrest]%andb_prop. rewrite (Hsym x y Hxy). by apply IH.
Qed.

Lemma all_eq_trans (xs : list T) : forall ys zs,
  (forall x y z, eqT x y = true -> eqT y z = true -> eqT x z = true) ->
  all_eq xs ys = true -> all_eq ys zs = true -> all_eq xs zs = true.
Proof.
  induction xs as [| x xs IH]; intros [| y ys] [| z zs] Htr; simpl; try done.
  intros [Hxy H1]%andb_prop [Hyz H2]%andb_prop.
  rewrite (Htr x y z Hxy Hyz). by apply (IH ys zs).
Qed.

(** X15. When the element equality is an equivalence, [operator==] on
    live containers is one: reflexive, symmetric and transitive;
    [operator!=] is defined and is true exactly when [operator==] is
    false; and two containers that compare equal have the same size. *)
Theorem equality_operators_equivalence (a b c : SimpleVector) :
  wf a -> wf b -> wf c ->
  (forall x, eqT x x = true) ->
  (forall x y, eqT x y = true -> eqT y x = true) ->
  (forall x y z, eqT x y = true -> eqT y z = true -> eqT x z = true) ->
  operator_eq a a = Some true
  /\ (operator_eq a b = Some true -> operator_eq b a = Some true)
  /\ (operator_eq a b = Some true -> operator_eq b c = Some true ->
      operator_eq a c = Some true)
  /\ (operator_ne a b = Some true <-> operator_eq a b = Some false)
  /\ (operator_eq a b = Some true -> size_ a = size_ b).
Proof.
  intros Ha Hb Hc Hrefl Hsym Htr.
  unfold operator_ne. rewrite !operator_eq_elements by done. simpl.
  split; [by rewrite all_eq_refl |].
  split; [intros [= H]; by rewrite (all_eq_sym _ _ Hsym H) |].
  split.
  { intros [= H1] [= H2]. by rewrite (all_eq_trans _ _ _ Htr H1 H2). }
  split; [by destruct (all_eq _ _) |].
  intros [= H]. apply all_eq_length in H.
  rewrite !elements_length in H by done.
  destruct Ha as (? & _), Hb as (? & _). lia.
Qed.

(** The capacity reached by doubling: none on an empty container that
    never held an element, otherwise a power of two that holds the
    elements and is less than twice their number. *)
Lemma push_call_keeps_doubling (v v' : SimpleVector) (p : push) :
  wf v ->
  (size_ v = 0 /\ capacity_ v = 0
   \/ exists k, 0 <= k /\ capacity_ v = 2 ^ k
                /\ size_ v <= capacity_ v < 2 * size_ v) ->
  push_call p v = Ret tt v' ->
  exists k, 0 <= k /\ capacity_ v' = 2 ^ k
            /\ size_ v' <= capacity_ v' < 2 * size_ v'.
Proof.
  intros Hwf Hinv Hrun. pose proof Hwf as (Hsize & _).
  pose proof (push_call_spec p v Hwf) as Hpush. rewrite Hrun in Hpush.
  destruct Hpush as (_ & Hs & Hroom & Hfull & _).
  destruct Hinv as [[Hs0 Hc0] | (k & Hk & Hc & Hbound)].
  - destruct (Hfull ltac:(lia)) as [Hc' _]. rewrite Hc0 in Hc'.
    exists 0. split; [lia |]. split; [by rewrite Hc' |]. lia.
  - destruct (Z.eq_dec (size_ v) (capacity_ v)) as [Heq | Hne].
    + destruct (Hfull Heq) as [Hc' _].
      assert (Hpos : 0 < 2 ^ k) by (apply Z.pow_pos_nonneg; lia).
      exists (Z.succ k). split; [lia |].
      rewrite Z.pow_succ_r by done. lia.
    + exists k. rewrite (Hroom ltac:(lia)). lia.
Qed.

Lemma PushBack_run_keeps_doubling (ps : list push) : forall v v' : SimpleVector,
  wf v ->
  (size_ v = 0 /\ capacity_ v = 0
   \/ exists k, 0 <= k /\ capacity_ v = 2 ^ k
                /\ size_ v <= capacity_ v < 2 * size_ v) ->
  PushBack_run ps v = Ret tt v' ->
  size_ v' = 0 /\ capacity_ v' = 0
  \/ exists k, 0 <= k /\ capacity_ v' = 2 ^ k
               /\ size_ v' <= capacity_ v' < 2 * size_ v'.
Proof.
  induction ps as [| p ps IH]; intros v v' Hwf Hinv.
  - simpl. unfold ret. by intros [= <-].
  - simpl PushBack_run. unfold bind.
    pose proof (push_call_spec p v Hwf) as Hpush.
    destruct (push_call p v) as [[] v1 | e v1 |] eqn:Hrun; [| done | done].
    intros Hrest. apply (IH v1 v'); [apply Hpush | | done].
    right. by apply (push_call_keeps_doubling v v1 p).
Qed.

Lemma pushed_values_outside (ps : list push) : forall xs : list T,
  map pushed_value ps = map Some xs ->
  length ps = length xs /\ Forall (fun p => is_Some (pushed_value p)) ps.
Proof.
  induction ps as [| p ps IH]; intros [| x xs] Hxs; try done.
  injection Hxs as Hx Hxs. destruct (IH xs Hxs) as [Hlen Hall].
  split; [simpl; by rewrite Hlen |].
  apply Forall_cons. split; [by exists x | done].
Qed.

(** X16. After a non-empty run of calls of [PushBack], of either overload
    and with any arguments, on a default-constructed container, the
    capacity, whenever the run returns, is a power of two that holds the
    elements and is less than twice their number: the least power of two
    at or above the size.  With arguments outside the container the run
    returns when the memory system serves the requests up to twice the
    number of calls. *)
Theorem capacity_after_appends_is_power_of_two (ps : list push) :
  ps <> [] ->
  (forall v,
     construct (SimpleVector_default ;; PushBack_run ps) = Ret tt v ->
     exists k,
       size_ v = Z.of_nat (length ps)
       /\ 0 <= k
       /\ capacity_ v = 2 ^ k
       /\ Z.of_nat (length ps) <= 2 ^ k < 2 * Z.of_nat (length ps))
  /\ (Forall (fun p => is_Some (pushed_value p)) ps ->
      (forall n, 0 <= n <= Z.max 1 (2 * Z.of_nat (length ps)) ->
         is_Some (ArrayPtr_new n)) ->
      exists v, construct (SimpleVector_default ;; PushBack_run ps) = Ret tt v).
Proof.
  intros Hne.
  unfold construct, bind, SimpleVector_default, ret.
  split.
  - intros v Hrun.
    pose proof (PushBack_run_spec ps default_members wf_default_members) as Hspec.
    rewrite Hrun in Hspec. destruct Hspec as (_ & Hs & _). simpl in Hs.
    destruct (PushBack_run_keeps_doubling ps default_members v
                wf_default_members ltac:(by left) Hrun)
      as [[Hs0 _] | (k & Hk & Hc & Hbound)].
    + destruct ps; [done | simpl length in *; lia].
    + exists k. split; [done |]. split; [done |]. split; [done |]. lia.
  - intros Hext Halloc.
    apply (PushBack_run_returns ps default_members wf_default_members);
      [simpl; lia | done | simpl; done].
Qed.

(** X17. After a run of calls of [PushBack], of either overload, with
    objects outside the container of values [xs], on a default-constructed
    container, [At] reads the sequence [xs]: the element at each index
    below its length, [out_of_range] at every other index, and the
    container is unchanged by the read. *)
Theorem At_reads_appended (ps : list push) (xs : list T) :
  map pushed_value ps = map Some xs ->
  (forall n, 0 <= n <= Z.max 1 (2 * Z.of_nat (length xs)) ->
     is_Some (ArrayPtr_new n)) ->
  exists v,
    construct (SimpleVector_default ;; PushBack_run ps) = Ret tt v
    /\ (forall i : nat,
          At (Z.of_nat i) v
          = match xs !! i with
            | Some x => Ret x v
            | None => Throw out_of_range v
            end).
Proof.
  intros Hxs Halloc.
  destruct (pushed_values_outside ps xs Hxs) as [Hlen Hext].
  unfold construct, bind, SimpleVector_default, ret.
  destruct (PushBack_run_returns ps default_members wf_default_members)
    as (v & Hrun); [simpl; lia | done | simpl; by rewrite Hlen |].
  pose proof (PushBack_run_spec ps default_members wf_default_members) as Hspec.
  rewrite Hrun in Hspec. destruct Hspec as (Hwf & _ & Hel).
  exists v. split; [done |]. intros i.
  rewrite At_elements by (done || lia). by rewrite Nat2Z.id, (Hel xs Hxs).
Qed.

(** X18. [Clear] always returns, empties the element sequence and keeps
    the block and the capacity: the container is then empty, [At] throws
    at every index, and up to [capacity] elements can be appended without
    any allocation. *)
Theorem Clear_keeps_capacity (v : SimpleVector) :
  wf v ->
  exists v',
    Clear v = Ret tt v'
    /\ wf v'
    /\ items_ v' = items_ v
    /\ capacity_ v' = capacity_ v
    /\ elements v' = []
    /\ IsEmpty v' = Ret true v'
    /\ (forall i, 0 <= i -> At i v' = Throw out_of_range v')
    /\ (forall xs : list T,
          Z.of_nat (length xs) <= capacity_ v ->
          exists v'',
            PushBack_all xs v' = Ret tt v''
            /\ capacity_ v'' = capacity_ v
            /\ elements v'' = xs).
Proof.
  intros (Hsize & Hlen & Hmax).
  set (v' := mkSimpleVector (items_ v) 0 (capacity_ v)).
  assert (Hwf' : wf v') by (unfold wf, v'; simpl; lia).
  exists v'. split; [done |]. split; [done |]. split; [done |].
  split; [done |]. split; [done |]. split; [done |].
  split.
  - intros i Hi. by rewrite At_elements by done.
  - intros xs Hxs.
    destruct (PushBack_all_in_room xs v' Hwf' ltac:(simpl; lia))
      as (v'' & Hrun & _ & Hc & _ & Hel).
    by exists v''.
Qed.

(** X19. [Reserve] never lowers the capacity and never changes the size
    or the elements: it returns with the capacity at the larger of the old
    one and the one asked for (the container untouched when the capacity
    already suffices), or throws [bad_alloc] with the container untouched.
    After it returns, asking again changes nothing, the new slots past the
    size are value-initialized, and appends up to the capacity asked for
    do not reallocate. *)
Theorem Reserve_only_grows (v : SimpleVector) (n : Z) :
  wf v ->
  match Reserve n v with
  | Ret _ v' =>
      wf v'
      /\ capacity_ v' = Z.max n (capacity_ v)
      /\ size_ v' = size_ v
      /\ elements v' = elements v
      /\ (n <= capacity_ v -> v' = v)
      /\ (forall i, capacity_ v < n -> size_ v <= i < n ->
            slot (items_ v') i = Some T0)
      /\ Reserve n v' = Ret tt v'
      /\ (forall xs : list T,
            size_ v + Z.of_nat (length xs) <= n ->
            exists v'',
              PushBack_all xs v' = Ret tt v''
              /\ capacity_ v'' = capacity_ v'
              /\ elements v'' = elements v ++ xs)
  | Throw e v' => e = bad_alloc /\ v' = v /\ capacity_ v < n
  | Undefined => False
  end.
Proof.
  intros Hwf. pose proof Hwf as (Hsize & Hlen & Hmax).
  destruct (Z.le_gt_cases n (capacity_ v)) as [Hle | Hgt].
  - rewrite Reserve_no_growth by done.
    split; [done |]. split; [lia |]. split; [done |]. split; [done |].
    split; [done |]. split; [intros; lia |].
    split; [by apply Reserve_no_growth |].
    intros xs Hxs.
    destruct (PushBack_all_in_room xs v Hwf ltac:(lia))
      as (v'' & Hrun & _ & Hc & _ & Hel).
    by exists v''.
  - destruct (ArrayPtr_new n) as [fresh |] eqn:Hnew.
    + destruct (Reserve_grows v n fresh Hwf ltac:(lia) Hnew)
        as (items' & -> & Hl & Htake & Hslack).
      pose proof Hnew as Hnew'.
      apply ArrayPtr_new_Some in Hnew' as (_ & Hle & _).
      set (v' := mkSimpleVector items' (size_ v) n).
      assert (Hwf' : wf v') by (unfold wf, v'; simpl; lia).
      assert (Hel : elements v' = elements v) by (by unfold elements, v'; simpl).
      split; [done |]. split; [simpl; lia |]. split; [done |].
      split; [done |]. split; [intros; lia |].
      split.
      { intros i _ Hi. simpl. rewrite slot_lookup by lia.
        apply Hslack. lia. }
      split; [apply Reserve_no_growth; simpl; lia |].
      intros xs Hxs.
      destruct (PushBack_all_in_room xs v' Hwf' ltac:(simpl; lia))
        as (v'' & Hrun & _ & Hc & _ & Hel'').
      exists v''. split; [done |]. split; [done |]. by rewrite Hel'', Hel.
    + rewrite Reserve_bad_alloc by (done || lia). by repeat split.
Qed.

(** X20. The operations that shrink the size ([Resize] to a smaller size,
    [Clear], [PopBack]) leave the dropped elements in the block: unchecked
    [operator[]] still reads an element dropped at index [i], while [At]
    throws [out_of_range] there. *)
Theorem shrinking_leaves_slots (v : SimpleVector) (i : Z) (x : T) :
  wf v -> 0 <= i < size_ v ->
  elements v !! Z.to_nat i = Some x ->
  (forall n, 0 <= n <= i ->
     exists v',
       Resize n v = Ret tt v'
       /\ operator_subscript i v' = Ret x v'
       /\ At i v' = Throw out_of_range v')
  /\ (exists v',
       Clear v = Ret tt v'
       /\ operator_subscript i v' = Ret x v'
       /\ At i v' = Throw out_of_range v')
  /\ (i = size_ v - 1 ->
      exists v',
        PopBack v = Ret tt v'
        /\ operator_subscript i v' = Ret x v'
        /\ At i v' = Throw out_of_range v').
Proof.
  intros Hwf Hi Hx. pose proof Hwf as (Hsize & Hlen & Hmax).
  rewrite elements_lookup in Hx by lia.
  assert (Hread : forall n, 0 <= n <= i ->
            operator_subscript i (mkSimpleVector (items_ v) n (capacity_ v))
            = Ret x (mkSimpleVector (items_ v) n (capacity_ v))
            /\ At i (mkSimpleVector (items_ v) n (capacity_ v))
               = Throw out_of_range (mkSimpleVector (items_ v) n (capacity_ v))).
  { intros n Hn. rewrite operator_subscript_unfold, At_unfold, Z.geb_leb. simpl.
    rewrite slot_lookup by lia. rewrite Hx.
    by destruct (Z.leb_spec n i); [| lia]. }
  split; [| split].
  - intros n Hn. eexists. split; [apply Resize_shrinks; lia |]. by apply Hread.
  - eexists. split; [done |]. apply Hread. lia.
  - intros ->. destruct (PopBack_spec v Hwf) as (v' & Hrun & _ & Hs & Hc & Hit).
    exists v'. split; [done |].
    destruct (Z.eqb_spec (size_ v) 0); [lia |].
    destruct (Hread (size_ v - 1) ltac:(lia)) as [Hsub Hat].
    replace v' with (mkSimpleVector (items_ v) (size_ v - 1) (capacity_ v));
      [done |].
    destruct v'; simpl in *; congruence.
Qed.

(** X21. [v.PushBack(v[i])] with [i] below the size: in a container with
    room it appends a copy of the element at [i] and keeps the capacity;
    on a full container the growth releases the block the reference
    points into, and the call (of either overload) is undefined when the
    allocation is served, and throws [bad_alloc], leaving the container as
    it was, when it is not. *)
Theorem PushBack_of_element (v : SimpleVector) (i : Z) :
  wf v -> 0 <= i < size_ v ->
  (size_ v < capacity_ v ->
   exists x v',
     elements v !! Z.to_nat i = Some x
     /\ PushBack (Element i) v = Ret tt v'
     /\ elements v' = elements v ++ [x]
     /\ size_ v' = size_ v + 1
     /\ capacity_ v' = capacity_ v)
  /\ (size_ v = capacity_ v ->
      is_Some (ArrayPtr_new (Z.max 1 (capacity_ v * 2))) ->
      PushBack (Element i) v = Undefined
      /\ PushBack_rvalue (Element i) v = Undefined)
  /\ (size_ v = capacity_ v ->
      ArrayPtr_new (Z.max 1 (capacity_ v * 2)) = None ->
      PushBack (Element i) v = Throw bad_alloc v
      /\ PushBack_rvalue (Element i) v = Throw bad_alloc v).
Proof.
  intros Hwf Hi. pose proof Hwf as (Hsize & Hlen & Hmax).
  split; [| split].
  - intros Hroom.
    pose proof (PushBack_spec v (Element i) Hwf) as Hspec.
    destruct (PushBack (Element i) v) as [[] v' | e v' |].
    + destruct Hspec as (x & Hread & _ & Hs & Hel & Hcap & _).
      exists x, v'. split; [| by rewrite (Hcap Hroom)].
      rewrite elements_lookup by lia.
      simpl in Hread. destruct (Z.ltb_spec (size_ v) (capacity_ v)); [| lia].
      by rewrite <- slot_lookup by lia.
    + destruct Hspec as (_ & _ & Hfull & _). lia.
    + destruct Hspec as [Hnone _].
      destruct (read_valid (Element i) v Hwf) as [x Hx]; [simpl; lia |].
      congruence.
  - intros Hfull Halloc.
    destruct (dangling_reference v i 0 Hwf Hfull Halloc ltac:(lia))
      as (Hcopy & Hmove & _).
    done.
  - intros Hfull Hnone.
    rewrite PushBack_unfold, PushBack_rvalue_unfold.
    by rewrite grow_if_full_bad_alloc.
Qed.

(** X22. [v.Insert(pos, v[i])] in a container with room, with [pos]
    before slot [i] and [i] at most the size: the backward move has
    written slot [i] before the argument is read, so the value inserted is
    a copy of the element that stood at [i - 1], not of the one at [i]. *)
Theorem Insert_of_shifted_element (v : SimpleVector) (p i : Z) :
  wf v -> size_ v < capacity_ v ->
  0 <= p < i -> i <= size_ v ->
  exists x v',
    elements v !! Z.to_nat (i - 1) = Some x
    /\ Insert p (Element i) v = Ret p v'
    /\ size_ v' = size_ v + 1
    /\ capacity_ v' = capacity_ v
    /\ elements v' = take (Z.to_nat p) (elements v) ++ x :: drop (Z.to_nat p) (elements v).
Proof.
  intros Hwf Hroom Hp Hi. pose proof Hwf as (Hsize & Hlen & Hmax).
  destruct (slot_is_Some (items_ v) (i - 1)) as [x Hx]; [lia |].
  rewrite slot_lookup in Hx by lia.
  destruct (insert_in_room v p x Hwf Hroom ltac:(lia))
    as (items1 & items2 & Hmb & Hl1 & Hup & _ & Hst & _ & _ & Hs2 & Hel2).
  exists x, (mkSimpleVector items2 (wrap (size_ v + 1)) (capacity_ v)).
  split; [by rewrite elements_lookup by lia |].
  split; [| done].
  rewrite Insert_unfold. unfold grow_if_full.
  destruct (Z.eqb_spec (size_ v) (capacity_ v)); [lia |].
  unfold ret. cbv zeta. rewrite distance_from_begin by lia.
  rewrite Hmb, Z.eqb_refl. simpl read.
  rewrite slot_lookup by lia.
  rewrite (Hup (Z.to_nat i)) by lia.
  replace (Z.to_nat i - 1)%nat with (Z.to_nat (i - 1)) by lia.
  rewrite Hx, Hst. by rewrite Z.add_0_l.
Qed.

End SimpleVector.

Arguments mkSimpleVector {T} items_ size_ capacity_.
Arguments External {T} x.
Arguments Element {T} index.
Arguments push_copy {T} item.
Arguments push_move {T} item.

(** ** The claims on containers of [int] *)

Section IntVector.

Import IntElement.

Local Ltac live := unfold wf; simpl; unfold PTRDIFF_MAX; lia.
Local Ltac served := intros; vm_compute; eexists; reflexivity.

(** The scenario of the specification: from [{1, 2, 3}], [PushBack(4)],
    [Insert(begin() + 1, 10)], [Erase(begin() + 2)], [PopBack()]. *)
Example scenario_sequence :
  bind Z (PushBack Z 0 residue heap_unlimited (External 4)) (fun _ =>
  bind Z (Insert Z 0 residue heap_unlimited 1 (External 10)) (fun _ =>
  bind Z (Erase Z residue 2) (fun _ =>
  PopBack Z))) (mkSimpleVector [1; 2; 3] 3 3)
  = Ret tt (mkSimpleVector [1; 10; 3; 4; 4; 0] 3 6).
Proof. reflexivity. Qed.

(** Arguments that are elements of the container: with room,
    [v.PushBack(v[0])] appends a copy of the first element; on a full
    container the reference dangles after the growth. *)
Example scenario_aliasing :
  PushBack Z 0 residue heap_unlimited (Element 0) (mkSimpleVector [1; 2; 3; 0] 3 4)
  = Ret tt (mkSimpleVector [1; 2; 3; 1] 4 4)
  /\ PushBack Z 0 residue heap_unlimited (Element 0) (mkSimpleVector [1; 2; 3; 4] 4 4)
     = Undefined.
Proof. split; reflexivity. Qed.



(** The second scenario: [Reserve(5)] on a default-constructed container,
    five appends without reallocation, and a sixth that doubles. *)
Example scenario_reserve :
  bind Z (Reserve Z 0 residue heap_unlimited 5) (fun _ =>
  PushBack_all Z 0 residue heap_unlimited [1; 2; 3; 4; 5]) (default_members Z)
  = Ret tt (mkSimpleVector [1; 2; 3; 4; 5] 5 5)
  /\ PushBack Z 0 residue heap_unlimited (External 6)
       (mkSimpleVector [1; 2; 3; 4; 5] 5 5)
     = Ret tt (mkSimpleVector [1; 2; 3; 4; 5; 6; 0; 0; 0; 0] 6 10).
Proof. split; reflexivity. Qed.

(** A forward move over the same overlapping ranges copies the first
    element over all the others: the direction of the move matters. *)
Example forward_move_smears :
  move_loop Z residue 3 0 1 [1; 2; 3; 0] = Some [1; 1; 1; 1]
  /\ move_backward Z residue 0 3 4 [1; 2; 3; 0] = Some [1; 1; 2; 3].
Proof. split; reflexivity. Qed.



Lemma Resize_semantics_witness :
  wf Z (mkSimpleVector [1; 2; 3] 3 3)
  /\ exists v1 v2,
       Resize Z 0 residue heap_unlimited 1 (mkSimpleVector [1; 2; 3] 3 3)
       = Ret tt v1
       /\ Resize Z 0 residue heap_unlimited 3 v1 = Ret tt v2
       /\ size_ Z v2 = 3
       /\ capacity_ Z v2 = 3
       /\ elements Z v2 = [1; 0; 0].
Proof.
  assert (Hwf : wf Z (mkSimpleVector [1; 2; 3] 3 3)) by live.
  split; [exact Hwf |].
  destruct (Resize_semantics Z 0 residue heap_unlimited
              (mkSimpleVector [1; 2; 3] 3 3) Hwf) as (_ & _ & Hround).
  apply (Hround 1). simpl. lia.
Defined.

Lemma bad_alloc_leaves_state_witness :
  wf Z (mkSimpleVector [1; 2; 3; 4] 4 4)
  /\ Reserve Z 0 residue heap_exhausted 9 (mkSimpleVector [1; 2; 3; 4] 4 4)
     = Throw bad_alloc (mkSimpleVector [1; 2; 3; 4] 4 4)
  /\ Resize Z 0 residue heap_exhausted 9 (mkSimpleVector [1; 2; 3; 4] 4 4)
     = Throw bad_alloc (mkSimpleVector [1; 2; 3; 4] 4 4)
  /\ PushBack Z 0 residue heap_exhausted (External 5)
       (mkSimpleVector [1; 2; 3; 4] 4 4)
     = Throw bad_alloc (mkSimpleVector [1; 2; 3; 4] 4 4)
  /\ Insert Z 0 residue heap_exhausted 2 (External 5)
       (mkSimpleVector [1; 2; 3; 4] 4 4)
     = Throw bad_alloc (mkSimpleVector [1; 2; 3; 4] 4 4).
Proof.
  assert (Hwf : wf Z (mkSimpleVector [1; 2; 3; 4] 4 4)) by live.
  split; [exact Hwf |].
  destruct (bad_alloc_leaves_state Z 0 residue heap_exhausted
              (mkSimpleVector [1; 2; 3; 4] 4 4) Hwf)
    as (Hexplicit & Hfull & _).
  destruct (Hexplicit 9) as (Hreserve & Hresize); [simpl; lia | reflexivity |].
  destruct (Hfull eq_refl eq_refl 2 (External 5)) as (Hpush & _ & Hinsert & _).
  split; [exact Hreserve |]. split; [exact Hresize |].
  split; [exact Hpush | exact Hinsert].
Defined.

Lemma At_checked_witness :
  wf Z (mkSimpleVector [1; 2; 3; 0] 3 4)
  /\ in_range 3
  /\ At Z 3 (mkSimpleVector [1; 2; 3; 0] 3 4)
     = Throw out_of_range (mkSimpleVector [1; 2; 3; 0] 3 4).
Proof.
  assert (Hwf : wf Z (mkSimpleVector [1; 2; 3; 0] 3 4)) by live.
  assert (Hi : in_range 3) by (unfold in_range, modulus; lia).
  split; [exact Hwf |]. split; [exact Hi |].
  destruct (At_checked Z (mkSimpleVector [1; 2; 3; 0] 3 4) 3 Hwf Hi)
    as (Hthrow & _ & _).
  apply Hthrow. simpl. lia.
Defined.

Lemma move_transfers_ownership_witness :
  exists objs' : gmap nat (SimpleVector Z),
    operator_assign_move Z 1%nat 2%nat
      (<[2%nat := mkSimpleVector [7; 8; 0] 2 3]>
         (<[1%nat := mkSimpleVector [1] 1 1]> ∅))
    = Ret tt objs'
    /\ (exists l' r',
          objs' !! 1%nat = Some l' /\ objs' !! 2%nat = Some r'
          /\ size_ Z l' = 2 /\ capacity_ Z l' = 3 /\ elements Z l' = [7; 8]
          /\ size_ Z r' = 0 /\ capacity_ Z r' = 0).
Proof.
  destruct (move_transfers_ownership Z) as (_ & Hassign & _).
  destruct (Hassign
              (<[2%nat := mkSimpleVector [7; 8; 0] 2 3]>
                 (<[1%nat := mkSimpleVector [1] 1 1]> ∅))
              1%nat 2%nat (mkSimpleVector [1] 1 1) (mkSimpleVector [7; 8; 0] 2 3))
    as (objs' & l' & r' & Hrun & Hl & Hr & Hs & Hc & _ & He & Hs0 & Hc0 & _).
  - reflexivity.
  - reflexivity.
  - lia.
  - exists objs'. split; [exact Hrun |]. exists l', r'.
    split; [exact Hl |]. split; [exact Hr |]. split; [exact Hs |].
    split; [exact Hc |]. split; [exact He |]. split; [exact Hs0 | exact Hc0].
Defined.

Lemma comparison_operators_witness :
  wf Z (mkSimpleVector [1; 2; 3] 3 3)
  /\ wf Z (mkSimpleVector [1; 2; 4; 0; 0] 3 5)
  /\ exists b,
       operator_lt Z Z.ltb (mkSimpleVector [1; 2; 3] 3 3)
         (mkSimpleVector [1; 2; 4; 0; 0] 3 5) = Some b
       /\ (b = true <-> lex_lt Z Z.ltb [1; 2; 3] [1; 2; 4]).
Proof.
  assert (Hl : wf Z (mkSimpleVector [1; 2; 3] 3 3)) by live.
  assert (Hr : wf Z (mkSimpleVector [1; 2; 4; 0; 0] 3 5)) by live.
  split; [exact Hl |]. split; [exact Hr |].
  destruct (comparison_operators Z Z.eqb Z.ltb _ _ Hl Hr) as (_ & Hlt & _).
  exact Hlt.
Defined.


Lemma Insert_at_end_is_PushBack_witness :
  wf Z (mkSimpleVector [1; 2; 3; 4] 4 4)
  /\ bind Z (end_ Z) (fun e => Insert Z 0 residue heap_unlimited e (External 5))
       (mkSimpleVector [1; 2; 3; 4] 4 4)
     = Ret 4 (mkSimpleVector [1; 2; 3; 4; 5; 0; 0; 0] 5 8)
  /\ PushBack Z 0 residue heap_unlimited (External 5)
       (mkSimpleVector [1; 2; 3; 4] 4 4)
     = Ret tt (mkSimpleVector [1; 2; 3; 4; 5; 0; 0; 0] 5 8).
Proof.
  assert (Hwf : wf Z (mkSimpleVector [1; 2; 3; 4] 4 4)) by live.
  split; [exact Hwf |].
  pose proof (Insert_at_end_is_PushBack Z 0 residue heap_unlimited
                (mkSimpleVector [1; 2; 3; 4] 4 4) (External 5) Hwf) as H.
  destruct (bind Z (end_ Z)
              (fun e => Insert Z 0 residue heap_unlimited e (External 5))
              (mkSimpleVector [1; 2; 3; 4] 4 4)) as [it v1 | e1 v1 |] eqn:Hins;
    [| vm_compute in Hins; discriminate | vm_compute in Hins; discriminate].
  destruct (PushBack Z 0 residue heap_unlimited (External 5)
              (mkSimpleVector [1; 2; 3; 4] 4 4))
    as [[] v2 | e2 v2 |] eqn:Hpush;
    [| vm_compute in Hpush; discriminate | vm_compute in Hpush; discriminate].
  destruct H as (Hsame & Hit & _).
  vm_compute in Hpush. injection Hpush as <-.
  subst v1. subst it. split; reflexivity.
Defined.

(** *** The further properties on containers of [int] *)

Lemma copy_constructor_copies_witness :
  wf Z (mkSimpleVector [1; 2; 9; 9] 2 4)
  /\ exists v,
       construct Z (SimpleVector_copy Z 0 heap_unlimited
                      (mkSimpleVector [1; 2; 9; 9] 2 4)) = Ret tt v
       /\ size_ Z v = 2 /\ capacity_ Z v = 4 /\ elements Z v = [1; 2]
       /\ slot Z (items_ Z v) 3 = Some 0.
Proof.
  assert (Hwf : wf Z (mkSimpleVector [1; 2; 9; 9] 2 4)) by live.
  split; [exact Hwf |].
  destruct (copy_constructor_copies Z 0 Z.eqb heap_unlimited
              (mkSimpleVector [1; 2; 9; 9] 2 4) Hwf) as (_ & Hcopy).
  destruct Hcopy as (v & Hrun & _ & Hs & Hc & Hel & Hslack & _); [served |].
  exists v. split; [exact Hrun |]. split; [exact Hs |]. split; [exact Hc |].
  split; [exact Hel |]. apply Hslack. simpl. lia.
Defined.

Lemma copy_assignment_copies_witness :
  wf Z (mkSimpleVector [7; 8; 0] 2 3)
  /\ exists (objs' : gmap nat (SimpleVector Z)) (l' : SimpleVector Z),
       operator_assign_copy Z 0 heap_unlimited 1%nat 2%nat
         (<[2%nat := mkSimpleVector [7; 8; 0] 2 3]>
            (<[1%nat := mkSimpleVector [1] 1 1]> ∅))
       = Ret tt objs'
       /\ objs' !! 1%nat = Some l'
       /\ size_ Z l' = 2 /\ capacity_ Z l' = 3 /\ elements Z l' = [7; 8]
       /\ objs' !! 2%nat = Some (mkSimpleVector [7; 8; 0] 2 3).
Proof.
  assert (Hwf : wf Z (mkSimpleVector [7; 8; 0] 2 3)) by live.
  split; [exact Hwf |].
  destruct (copy_assignment_copies Z 0 heap_unlimited
              (<[2%nat := mkSimpleVector [7; 8; 0] 2 3]>
                 (<[1%nat := mkSimpleVector [1] 1 1]> ∅))
              1%nat 2%nat (mkSimpleVector [1] 1 1) (mkSimpleVector [7; 8; 0] 2 3))
    as (_ & _ & Hcopy); [reflexivity | reflexivity | exact Hwf |].
  destruct Hcopy as (objs' & l' & Hrun & Hl & _ & Hs & Hc & Hel & Hrest);
    [lia | served |].
  exists objs', l'. split; [exact Hrun |]. split; [exact Hl |].
  split; [exact Hs |]. split; [exact Hc |]. split; [exact Hel |].
  rewrite Hrest by lia. reflexivity.
Defined.

Lemma sized_constructors_fill_witness :
  in_range 3
  /\ exists v,
       construct Z (SimpleVector_size_value Z 0 heap_unlimited 3 7) = Ret tt v
       /\ size_ Z v = 3 /\ capacity_ Z v = 3 /\ elements Z v = [7; 7; 7].
Proof.
  assert (Hn : in_range 3) by (unfold in_range, modulus; lia).
  split; [exact Hn |].
  destruct (sized_constructors_fill Z 0 heap_unlimited 3 7 Hn) as (Hserved & _).
  destruct Hserved as ((v & Hrun & _ & Hs & Hc & Hel) & _); [served |].
  exists v. split; [exact Hrun |]. split; [exact Hs |]. split; [exact Hc |].
  exact Hel.
Defined.

Lemma initializer_list_constructor_copies_witness :
  exists v,
    construct Z (SimpleVector_init Z 0 heap_unlimited [1; 2; 3]) = Ret tt v
    /\ size_ Z v = 3 /\ capacity_ Z v = 3 /\ elements Z v = [1; 2; 3]
    /\ At Z 1 v = Ret 2 v
    /\ At Z 3 v = Throw out_of_range v.
Proof.
  destruct (initializer_list_constructor_copies Z 0 heap_unlimited [1; 2; 3])
    as (v & Hrun & _ & Hs & Hc & Hel & Hat); [served |].
  exists v. split; [exact Hrun |]. split; [exact Hs |]. split; [exact Hc |].
  split; [exact Hel |]. split; [exact (Hat 1%nat) | exact (Hat 3%nat)].
Defined.

Lemma reserving_constructor_reserves_witness :
  in_range 5
  /\ exists v v',
       construct Z (SimpleVector_reserve Z 0 heap_unlimited (Reserve_proxy 5))
       = Ret tt v
       /\ size_ Z v = 0 /\ capacity_ Z v = 5
       /\ PushBack_all Z 0 residue heap_unlimited [1; 2; 3; 4; 5] v = Ret tt v'
       /\ capacity_ Z v' = 5
       /\ elements Z v' = [1; 2; 3; 4; 5].
Proof.
  assert (Hn : in_range 5) by (unfold in_range, modulus; lia).
  split; [exact Hn |].
  destruct (reserving_constructor_reserves Z 0 residue heap_unlimited 5
              [1; 2; 3; 4; 5] Hn)
    as (v & v' & Hrun & _ & Hs & Hc & _ & Hpush & Hc' & _ & Hel');
    [served | simpl; lia |].
  exists v, v'. split; [exact Hrun |]. split; [exact Hs |]. split; [exact Hc |].
  split; [exact Hpush |]. split; [exact Hc' | exact Hel'].
Defined.

Lemma PushBack_with_room_never_allocates_witness :
  wf Z (mkSimpleVector [1; 0; 0] 1 3)
  /\ exists v',
       PushBack_all Z 0 residue heap_exhausted [2; 3] (mkSimpleVector [1; 0; 0] 1 3)
       = Ret tt v'
       /\ capacity_ Z v' = 3
       /\ elements Z v' = [1; 2; 3].
Proof.
  assert (Hwf : wf Z (mkSimpleVector [1; 0; 0] 1 3)) by live.
  split; [exact Hwf |].
  destruct (PushBack_with_room_never_allocates Z 0 residue heap_exhausted
              (mkSimpleVector [1; 0; 0] 1 3) [2; 3] Hwf)
    as (v' & Hrun & Hc & _ & Hel & _); [simpl; lia |].
  exists v'. split; [exact Hrun |]. split; [exact Hc | exact Hel].
Defined.

Lemma PopBack_drops_last_witness :
  wf Z (mkSimpleVector [1; 2; 3] 3 3)
  /\ exists v',
       PopBack Z (mkSimpleVector [1; 2; 3] 3 3) = Ret tt v'
       /\ capacity_ Z v' = 3
       /\ size_ Z v' = 2
       /\ elements Z v' = [1; 2].
Proof.
  assert (Hwf : wf Z (mkSimpleVector [1; 2; 3] 3 3)) by live.
  split; [exact Hwf |].
  destruct (PopBack_drops_last Z (mkSimpleVector [1; 2; 3] 3 3) Hwf)
    as (v' & Hrun & _ & _ & Hc & _ & Hpos).
  destruct Hpos as (Hs & Hel & _); [simpl; lia |].
  exists v'. split; [exact Hrun |]. split; [exact Hc |]. split; [exact Hs |].
  exact Hel.
Defined.

Lemma PushBack_PopBack_roundtrip_witness :
  wf Z (mkSimpleVector [1; 2; 3; 0] 3 4)
  /\ valid_argument Z (Element 0) (mkSimpleVector [1; 2; 3; 0] 3 4)
  /\ exists v1 v2,
       PushBack Z 0 residue heap_exhausted (Element 0)
         (mkSimpleVector [1; 2; 3; 0] 3 4)
       = Ret tt v1
       /\ PopBack Z v1 = Ret tt v2
       /\ size_ Z v2 = 3
       /\ elements Z v2 = [1; 2; 3].
Proof.
  assert (Hwf : wf Z (mkSimpleVector [1; 2; 3; 0] 3 4)) by live.
  assert (Hvalid : valid_argument Z (Element 0) (mkSimpleVector [1; 2; 3; 0] 3 4))
    by (simpl; lia).
  split; [exact Hwf |]. split; [exact Hvalid |].
  destruct (PushBack_PopBack_roundtrip Z 0 residue heap_exhausted
              (mkSimpleVector [1; 2; 3; 0] 3 4) (Element 0) Hwf Hvalid)
    as (v1 & v2 & Hpush & _ & Hpop & Hs & Hel & _);
    [intros Hfull; simpl in Hfull; lia |].
  exists v1, v2. split; [exact Hpush |]. split; [exact Hpop |].
  split; [exact Hs | exact Hel].
Defined.

Lemma Erase_removes_element_witness :
  wf Z (mkSimpleVector [1; 2; 3; 4] 4 4)
  /\ exists v',
       Erase Z residue 1 (mkSimpleVector [1; 2; 3; 4] 4 4) = Ret 1 v'
       /\ size_ Z v' = 3 /\ capacity_ Z v' = 4
       /\ elements Z v' = [1; 3; 4].
Proof.
  assert (Hwf : wf Z (mkSimpleVector [1; 2; 3; 4] 4 4)) by live.
  split; [exact Hwf |].
  destruct (Erase_removes_element Z residue (mkSimpleVector [1; 2; 3; 4] 4 4) 1 Hwf)
    as (v' & Hrun & _ & Hs & Hc & Hel & _); [simpl; lia |].
  exists v'. split; [exact Hrun |]. split; [exact Hs |]. split; [exact Hc |].
  exact Hel.
Defined.

Lemma Erase_last_is_PopBack_witness :
  wf Z (mkSimpleVector [1; 2; 3; 0] 3 4)
  /\ exists v',
       Erase Z residue 2 (mkSimpleVector [1; 2; 3; 0] 3 4) = Ret 2 v'
       /\ PopBack Z (mkSimpleVector [1; 2; 3; 0] 3 4) = Ret tt v'.
Proof.
  assert (Hwf : wf Z (mkSimpleVector [1; 2; 3; 0] 3 4)) by live.
  split; [exact Hwf |].
  destruct (Erase_last_is_PopBack Z residue (mkSimpleVector [1; 2; 3; 0] 3 4) Hwf)
    as (v' & Herase & Hpop & _); [simpl; lia |].
  exists v'. split; [exact Herase | exact Hpop].
Defined.

Lemma Erase_Insert_roundtrip_witness :
  wf Z (mkSimpleVector [1; 2; 3; 4] 4 4)
  /\ exists v1 v2,
       Erase Z residue 1 (mkSimpleVector [1; 2; 3; 4] 4 4) = Ret 1 v1
       /\ Insert Z 0 residue heap_exhausted 1 (External 2) v1 = Ret 1 v2
       /\ capacity_ Z v2 = 4
       /\ elements Z v2 = [1; 2; 3; 4].
Proof.
  assert (Hwf : wf Z (mkSimpleVector [1; 2; 3; 4] 4 4)) by live.
  split; [exact Hwf |].
  destruct (Erase_Insert_roundtrip Z 0 residue heap_exhausted
              (mkSimpleVector [1; 2; 3; 4] 4 4) 1 (External 2) 2 Hwf)
    as (v1 & v2 & Herase & Hins & _ & Hc & Hel);
    [simpl; lia | reflexivity | reflexivity |].
  exists v1, v2. split; [exact Herase |]. split; [exact Hins |].
  split; [exact Hc | exact Hel].
Defined.

Lemma Erase_past_end_is_undefined_witness :
  wf Z (default_members Z)
  /\ Erase Z residue 0 (default_members Z) = Undefined.
Proof.
  assert (Hwf : wf Z (default_members Z)) by live.
  split; [exact Hwf |].
  apply (Erase_past_end_is_undefined Z residue (default_members Z) 0 Hwf).
  simpl. unfold PTRDIFF_MAX. lia.
Defined.

Lemma swap_exchanges_witness :
  exists objs' : gmap nat (SimpleVector Z),
    swap Z 1%nat 2%nat
      (<[2%nat := mkSimpleVector [7; 8; 0] 2 3]>
         (<[1%nat := mkSimpleVector [1] 1 1]> ∅))
    = Ret tt objs'
    /\ objs' !! 1%nat = Some (mkSimpleVector [7; 8; 0] 2 3)
    /\ objs' !! 2%nat = Some (mkSimpleVector [1] 1 1)
    /\ swap Z 1%nat 2%nat objs'
       = Ret tt (<[2%nat := mkSimpleVector [7; 8; 0] 2 3]>
                   (<[1%nat := mkSimpleVector [1] 1 1]> ∅)).
Proof.
  destruct (swap_exchanges Z
              (<[2%nat := mkSimpleVector [7; 8; 0] 2 3]>
                 (<[1%nat := mkSimpleVector [1] 1 1]> ∅))
              1%nat 2%nat (mkSimpleVector [1] 1 1) (mkSimpleVector [7; 8; 0] 2 3))
    as (objs' & Hrun & Hthis & Hother & _ & Hback & _);
    [reflexivity | reflexivity |].
  exists objs'. split; [exact Hrun |]. split; [exact Hthis |].
  split; [exact Hother | exact Hback].
Defined.

Lemma ordering_operators_strict_order_witness :
  wf Z (mkSimpleVector [1; 2] 2 2)
  /\ wf Z (mkSimpleVector [1; 3; 0] 2 3)
  /\ wf Z (mkSimpleVector [1; 3; 0] 3 3)
  /\ operator_lt Z Z.ltb (mkSimpleVector [1; 2] 2 2) (mkSimpleVector [1; 2] 2 2)
     = Some false
  /\ operator_lt Z Z.ltb (mkSimpleVector [1; 2] 2 2) (mkSimpleVector [1; 3; 0] 3 3)
     = Some true.
Proof.
  assert (Ha : wf Z (mkSimpleVector [1; 2] 2 2)) by live.
  assert (Hb : wf Z (mkSimpleVector [1; 3; 0] 2 3)) by live.
  assert (Hc : wf Z (mkSimpleVector [1; 3; 0] 3 3)) by live.
  split; [exact Ha |]. split; [exact Hb |]. split; [exact Hc |].
  destruct (ordering_operators_strict_order Z Z.ltb _ _ _ Ha Hb Hc)
    as (Hirr & _ & Htrans & _).
  - intros x y Hxy. apply Z.ltb_lt in Hxy. apply Z.ltb_ge. lia.
  - intros x y z Hxy. apply Z.ltb_lt in Hxy.
    destruct (Z.ltb_spec x z); [by left | right]. apply Z.ltb_lt. lia.
  - split; [exact Hirr |]. apply Htrans; reflexivity.
Defined.

Lemma equality_operators_equivalence_witness :
  wf Z (mkSimpleVector [1; 2] 2 2)
  /\ wf Z (mkSimpleVector [1; 2; 0] 2 3)
  /\ wf Z (mkSimpleVector [1; 2; 5; 6] 2 4)
  /\ operator_eq Z Z.eqb (mkSimpleVector [1; 2] 2 2)
       (mkSimpleVector [1; 2; 5; 6] 2 4) = Some true.
Proof.
  assert (Ha : wf Z (mkSimpleVector [1; 2] 2 2)) by live.
  assert (Hb : wf Z (mkSimpleVector [1; 2; 0] 2 3)) by live.
  assert (Hc : wf Z (mkSimpleVector [1; 2; 5; 6] 2 4)) by live.
  split; [exact Ha |]. split; [exact Hb |]. split; [exact Hc |].
  destruct (equality_operators_equivalence Z Z.eqb _ _ _ Ha Hb Hc)
    as (_ & _ & Htrans & _).
  - intros x. apply Z.eqb_refl.
  - intros x y Hxy. apply Z.eqb_eq in Hxy. apply Z.eqb_eq. lia.
  - intros x y z Hxy Hyz. apply Z.eqb_eq in Hxy, Hyz. apply Z.eqb_eq. lia.
  - apply Htrans; reflexivity.
Defined.

Lemma capacity_after_appends_is_power_of_two_witness :
  exists v k,
    construct Z (bind Z (SimpleVector_default Z) (fun _ =>
      PushBack_run Z 0 residue heap_unlimited
        [push_copy (External 1); push_move (External 2); push_copy (External 3);
         push_move (External 4); push_copy (External 5)]))
    = Ret tt v
    /\ capacity_ Z v = 2 ^ k
    /\ 5 <= 2 ^ k < 10.
Proof.
  destruct (capacity_after_appends_is_power_of_two Z 0 residue heap_unlimited
              [push_copy (External 1); push_move (External 2);
               push_copy (External 3); push_move (External 4);
               push_copy (External 5)])
    as (Hcap & Hreturns); [discriminate |].
  destruct Hreturns as (v & Hrun).
  - repeat constructor; by eexists.
  - intros n Hn. apply ArrayPtr_new_is_Some; [| reflexivity].
    simpl in Hn. unfold PTRDIFF_MAX. lia.
  - destruct (Hcap v Hrun) as (k & _ & _ & Hc & Hbound).
    exists v, k. split; [exact Hrun |]. split; [exact Hc | exact Hbound].
Defined.

Lemma At_reads_appended_witness :
  exists v,
    construct Z (bind Z (SimpleVector_default Z) (fun _ =>
      PushBack_run Z 0 residue heap_unlimited
        [push_copy (External 4); push_move (External 5); push_copy (External 6)]))
    = Ret tt v
    /\ At Z 2 v = Ret 6 v
    /\ At Z 3 v = Throw out_of_range v.
Proof.
  destruct (At_reads_appended Z 0 residue heap_unlimited
              [push_copy (External 4); push_move (External 5);
               push_copy (External 6)] [4; 5; 6])
    as (v & Hrun & Hat).
  - reflexivity.
  - intros n Hn. apply ArrayPtr_new_is_Some; [| reflexivity].
    simpl in Hn. unfold PTRDIFF_MAX. lia.
  - exists v. split; [exact Hrun |].
    split; [exact (Hat 2%nat) | exact (Hat 3%nat)].
Defined.

Lemma Clear_keeps_capacity_witness :
  wf Z (mkSimpleVector [1; 2; 3] 3 3)
  /\ exists v' v'',
       Clear Z (mkSimpleVector [1; 2; 3] 3 3) = Ret tt v'
       /\ capacity_ Z v' = 3 /\ elements Z v' = []
       /\ PushBack_all Z 0 residue heap_exhausted [7; 8] v' = Ret tt v''
       /\ elements Z v'' = [7; 8].
Proof.
  assert (Hwf : wf Z (mkSimpleVector [1; 2; 3] 3 3)) by live.
  split; [exact Hwf |].
  destruct (Clear_keeps_capacity Z 0 residue heap_exhausted
              (mkSimpleVector [1; 2; 3] 3 3) Hwf)
    as (v' & Hrun & _ & _ & Hc & Hel & _ & _ & Hrefill).
  destruct (Hrefill [7; 8]) as (v'' & Hpush & _ & Hel''); [simpl; lia |].
  exists v', v''. split; [exact Hrun |]. split; [exact Hc |].
  split; [exact Hel |]. split; [exact Hpush | exact Hel''].
Defined.

Lemma Reserve_only_grows_witness :
  wf Z (mkSimpleVector [1; 2; 3] 3 3)
  /\ Reserve Z 0 residue heap_unlimited 2 (mkSimpleVector [1; 2; 3] 3 3)
     = Ret tt (mkSimpleVector [1; 2; 3] 3 3).
Proof.
  assert (Hwf : wf Z (mkSimpleVector [1; 2; 3] 3 3)) by live.
  split; [exact Hwf |].
  pose proof (Reserve_only_grows Z 0 residue heap_unlimited
                (mkSimpleVector [1; 2; 3] 3 3) 2 Hwf) as H.
  destruct (Reserve Z 0 residue heap_unlimited 2 (mkSimpleVector [1; 2; 3] 3 3))
    as [[] v' | e v' |]; [| destruct H as (_ & _ & Hlt); simpl in Hlt; lia
                          | destruct H].
  destruct H as (_ & _ & _ & _ & Hsame & _).
  rewrite Hsame by (simpl; lia). reflexivity.
Defined.

Lemma shrinking_leaves_slots_witness :
  wf Z (mkSimpleVector [1; 2; 3] 3 3)
  /\ exists v',
       PopBack Z (mkSimpleVector [1; 2; 3] 3 3) = Ret tt v'
       /\ operator_subscript Z 2 v' = Ret 3 v'
       /\ At Z 2 v' = Throw out_of_range v'.
Proof.
  assert (Hwf : wf Z (mkSimpleVector [1; 2; 3] 3 3)) by live.
  split; [exact Hwf |].
  destruct (shrinking_leaves_slots Z 0 residue heap_unlimited
              (mkSimpleVector [1; 2; 3] 3 3) 2 3 Hwf) as (_ & _ & Hpop).
  - simpl. lia.
  - reflexivity.
  - apply Hpop. reflexivity.
Defined.

Lemma PushBack_of_element_witness :
  wf Z (mkSimpleVector [1; 2; 3; 0] 3 4)
  /\ exists v',
       PushBack Z 0 residue heap_exhausted (Element 1)
         (mkSimpleVector [1; 2; 3; 0] 3 4)
       = Ret tt v'
       /\ elements Z v' = [1; 2; 3; 2]
       /\ capacity_ Z v' = 4.
Proof.
  assert (Hwf : wf Z (mkSimpleVector [1; 2; 3; 0] 3 4)) by live.
  split; [exact Hwf |].
  destruct (PushBack_of_element Z 0 residue heap_exhausted
              (mkSimpleVector [1; 2; 3; 0] 3 4) 1 Hwf)
    as (Hroom & _); [simpl; lia |].
  destruct Hroom as (x & v' & Hx & Hrun & Hel & _ & Hcap); [simpl; lia |].
  injection Hx as <-.
  exists v'. split; [exact Hrun |]. split; [exact Hel | exact Hcap].
Defined.

Lemma Insert_of_shifted_element_witness :
  wf Z (mkSimpleVector [1; 2; 3; 0] 3 4)
  /\ exists v',
       Insert Z 0 residue heap_exhausted 0 (Element 2)
         (mkSimpleVector [1; 2; 3; 0] 3 4)
       = Ret 0 v'
       /\ elements Z v' = [2; 1; 2; 3].
Proof.
  assert (Hwf : wf Z (mkSimpleVector [1; 2; 3; 0] 3 4)) by live.
  split; [exact Hwf |].
  destruct (Insert_of_shifted_element Z 0 residue heap_exhausted
              (mkSimpleVector [1; 2; 3; 0] 3 4) 0 2 Hwf)
    as (x & v' & Hx & Hrun & _ & _ & Hel);
    [simpl; lia | lia | simpl; lia |].
  injection Hx as <-.
  exists v'. split; [exact Hrun | exact Hel].
Defined.

End IntVector.
